(** * KWIC index (Parnas decomposition, second modularisation): a shallow
    embedding of [m2/main.go] and the properties of its modules.

    Go's [int] is modelled as [Z]: every integer of the program is a slice
    index, a slice length or a count of bytes read, so the 64-bit bound is
    never reached.  A [byte] is a [Z]; the only arithmetic on bytes is in
    [normalizeChar], where the wrap-around modulo 256 is written out.
    A panic (explicit [panic] or a run-time index error) is the [Panic]
    result; mutable state that is still observable when a panic unwinds
    (the storage array, the bytes already written) is threaded explicitly. *)

From Stdlib Require Import ZArith List Lia Bool String.
From stdpp Require Import base list numbers sorting.
From Equations Require Import Equations.
Import ListNotations.

Local Open Scope Z_scope.

(** ** Panics and state *)

Inductive result (A : Type) : Type :=
| Ok (a : A)
| Panic (msg : string).
Arguments Ok {A} a.
Arguments Panic {A} msg.

Class Monad (M : Type -> Type) : Type := {
  ret : forall {A}, A -> M A;
  bind : forall {A B}, M A -> (A -> M B) -> M B
}.

Notation "x <- m ;; k" := (bind m (fun x => k))
  (at level 63, m at next level, right associativity, only parsing).
Notation "m ;;; k" := (bind m (fun _ => k))
  (at level 63, right associativity, only parsing).

(** A scrutinee together with the equation that names it. *)
Definition inspect {A : Type} (x : A) : {y : A | x = y} := exist _ x eq_refl.

#[export] Instance result_monad : Monad result := {
  ret := fun A a => Ok a;
  bind := fun A B m f => match m with Ok a => f a | Panic msg => Panic msg end
}.

(** A computation over a mutable state [S] that may panic; the state reached
    when the panic was raised is kept. *)
Definition SE (S A : Type) : Type := S -> S * result A.

#[export] Instance SE_monad (S : Type) : Monad (SE S) := {
  ret := fun A a s => (s, Ok a);
  bind := fun A B m f s =>
    match m s with
    | (s', Ok a) => f a s'
    | (s', Panic msg) => (s', Panic msg)
    end
}.

Definition lift {S A} (r : result A) : SE S A := fun s => (s, r).
Definition get {S} : SE S S := fun s => (s, Ok s).
Definition put {S} (s : S) : SE S unit := fun _ => (s, Ok tt).
Definition panic {S A} (msg : string) : SE S A := fun s => (s, Panic msg).

(** [for i := lo; i < hi; i++ { s = body i s }], for a bound [hi] that the
    body does not change. *)
Fixpoint for_loop {M} `{Monad M} {S} (n : nat) (i : Z) (body : Z -> S -> M S) (s : S) : M S :=
  match n with
  | O => ret s
  | Datatypes.S n' => s' <- body i s ;; for_loop n' (i + 1) body s'
  end.

Definition for_range {M} `{Monad M} {S} (lo hi : Z) (body : Z -> S -> M S) (s : S) : M S :=
  for_loop (Z.to_nat (hi - lo)) lo body s.

(** ** Slices *)

Definition byte : Type := Z.

Definition len {A} (l : list A) : Z := Z.of_nat (length l).

(** [l[i]]: a run-time panic outside [0 <= i < len(l)]. *)
Definition index {A} (l : list A) (i : Z) : result A :=
  if i <? 0 then Panic "index out of range"%string
  else match l !! Z.to_nat i with
       | Some x => Ok x
       | None => Panic "index out of range"%string
       end.

(** [l[i] = x]: a run-time panic outside [0 <= i < len(l)]. *)
Definition store {A} (l : list A) (i : Z) (x : A) : result (list A) :=
  if (i <? 0) || (len l <=? i) then Panic "index out of range"%string
  else Ok (<[Z.to_nat i := x]> l).

(** ** The interface *)

Class lineHolder (T : Type) : Type := {
  (* char returns the requested character of a word in a line. *)
  char : T -> Z -> Z -> Z -> result byte;
  (* lines returns the total number of lines. *)
  lines : T -> result Z;
  (* words returns the number of words in a line. *)
  words : T -> Z -> result Z;
  (* chars returns the number of characters in a word. *)
  chars : T -> Z -> Z -> result Z
}.

(** ** Module 1: Line Storage *)

Record lineStorage : Type := { array : list (list (list byte)) }.

Definition lineStorage_char (storage : lineStorage) (line word c : Z) : result byte :=
  l <- index (array storage) (line - 1) ;;
  w <- index l (word - 1) ;;
  index w (c - 1).

Definition lineStorage_lines (storage : lineStorage) : result Z :=
  Ok (len (array storage)).

Definition lineStorage_words (storage : lineStorage) (line : Z) : result Z :=
  l <- index (array storage) (line - 1) ;;
  Ok (len l).

Definition lineStorage_chars (storage : lineStorage) (line word : Z) : result Z :=
  l <- index (array storage) (line - 1) ;;
  w <- index l (word - 1) ;;
  Ok (len w).

#[export] Instance lineStorage_holder : lineHolder lineStorage := {
  char := lineStorage_char;
  lines := lineStorage_lines;
  words := lineStorage_words;
  chars := lineStorage_chars
}.

Definition ERLSBL : string := "Line not last or just past last (ERLSBL)"%string.
Definition ERLSBW : string := "Word not last or just past last (ERLSBW)"%string.
Definition ERLSBC : string := "Char not just past last (ERLSBC)"%string.

(** [storage.array[line-1] = append(storage.array[line-1], nil)] *)
Definition appendWord (line : Z) : SE lineStorage unit :=
  storage <- get ;;
  l <- lift (index (array storage) (line - 1)) ;;
  arr <- lift (store (array storage) (line - 1) (l ++ [[]])) ;;
  put {| array := arr |}.

(** [storage.array[line-1][word-1] = append(storage.array[line-1][word-1], value)] *)
Definition appendByte (line word : Z) (value : byte) : SE lineStorage unit :=
  storage <- get ;;
  l <- lift (index (array storage) (line - 1)) ;;
  w <- lift (index l (word - 1)) ;;
  l' <- lift (store l (word - 1) (w ++ [value])) ;;
  arr <- lift (store (array storage) (line - 1) l') ;;
  put {| array := arr |}.

(* setWord adds a character to the last word, a new word on the last line, or
   a new word on a new line. *)
Definition setWord (line word c : Z) (value : byte) : SE lineStorage unit :=
  storage <- get ;;
  nlines <- lift (lines storage) ;;
  (if (line <? nlines) || (nlines + 1 <? line) then panic ERLSBL else ret tt) ;;;
  nwords <- (if line =? nlines then lift (words storage line) else ret 0) ;;
  (if (word <? nwords) || (nwords + 1 <? word) then panic ERLSBW else ret tt) ;;;
  nchars <- (if (line =? nlines) && (word =? nwords)
             then lift (chars storage line word) else ret 0) ;;
  (if negb (c =? nchars + 1) then panic ERLSBC else ret tt) ;;;
  (if line =? nlines + 1
   then put {| array := array storage ++ [[]] |} else ret tt) ;;;
  (if word =? nwords + 1 then appendWord line else ret tt) ;;;
  appendByte line word value.

(** ** Module 2: Input *)

(** One call of [file.Read(buf)] on the one-byte buffer, before end of file:
    a byte, nothing ([n == 0] with a nil error), or an error.  After the
    last element of the list every read returns [io.EOF]. *)
Inductive read : Type :=
| ReadByte (b : byte)
| ReadNone
| ReadErr (err : string).

(** What [os.Open] finds. *)
Inductive file : Type :=
| OpenErr (err : string)
| Opened (reads : list read).

(** Go's [error] value: [None] is [nil]. *)
Definition error : Type := option string.

Definition space : byte := 32.
Definition newline : byte := 10.

Fixpoint input_loop (reads : list read) (line word c : Z) : SE lineStorage error :=
  match reads with
  | [] => ret None
  | ReadErr err :: _ => ret (Some err)
  | ReadNone :: rest => input_loop rest line word c
  | ReadByte b :: rest =>
      if b =? space then input_loop rest line (word + 1) 1
      else if b =? newline then input_loop rest (line + 1) 1 1
      else setWord line word c b ;;; input_loop rest line word (c + 1)
  end.

Definition input (f : file) : SE lineStorage error :=
  match f with
  | OpenErr err => ret (Some err)
  | Opened reads => input_loop reads 1 1 1
  end.

(** ** Module 3: Circular Shifter *)

Record shift : Type := { shift_line : Z; startWord : Z }.

Record circularShifter (T : Type) : Type := {
  shifter_storage : T;
  shifts : list shift
}.
Arguments shifter_storage {T} _.
Arguments shifts {T} _.

Section CircularShifter.
Context {T : Type} `{lineHolder T}.

Definition newCircularShifter (storage : T) : result (circularShifter T) :=
  nlines <- lines storage ;;
  shs <- for_range 1 (nlines + 1) (fun line shs =>
           nwords <- words storage line ;;
           for_range 1 (nwords + 1) (fun word shs =>
             ret (shs ++ [{| shift_line := line; startWord := word |}])) shs) [] ;;
  ret {| shifter_storage := storage; shifts := shs |}.

Definition circularShifter_char (shifter : circularShifter T) (line word c : Z) : result byte :=
  sh <- index (shifts shifter) (line - 1) ;;
  let word := word + startWord sh in
  nwords <- words (shifter_storage shifter) (shift_line sh) ;;
  let word := if nwords <? word then word - nwords else word in
  char (shifter_storage shifter) (shift_line sh) word c.

Definition circularShifter_lines (shifter : circularShifter T) : result Z :=
  Ok (len (shifts shifter)).

Definition circularShifter_words (shifter : circularShifter T) (line : Z) : result Z :=
  sh <- index (shifts shifter) (line - 1) ;;
  words (shifter_storage shifter) (shift_line sh).

Definition circularShifter_chars (shifter : circularShifter T) (line word : Z) : result Z :=
  sh <- index (shifts shifter) (line - 1) ;;
  let word := word + startWord sh in
  nwords <- words (shifter_storage shifter) (shift_line sh) ;;
  let word := if nwords <? word then word - nwords else word in
  chars (shifter_storage shifter) (shift_line sh) word.

#[export] Instance circularShifter_holder : lineHolder (circularShifter T) := {
  char := circularShifter_char;
  lines := circularShifter_lines;
  words := circularShifter_words;
  chars := circularShifter_chars
}.
End CircularShifter.

(** ** Module 4: Alphabetizer *)

Definition normalizeChar (c : byte) : byte :=
  if (65 <=? c) && (c <=? 90) then ((c - 65) * 2) mod 256
  else if (97 <=? c) && (c <=? 122) then ((c - 97) * 2 + 1) mod 256
  else 0.

Section Comparator.
Context {T : Type} `{lineHolder T} (holder : T).

(** The [for] loop of [wordsLess], entered with the counter at [c]. *)
Equations? wordsLess_loop (line1 word1 line2 word2 chars1 chars2 c : Z) : result bool
  by wf (Z.to_nat (chars2 + 1 - c)) lt :=
  wordsLess_loop line1 word1 line2 word2 chars1 chars2 c :=
    if (chars1 <? c) && (c <=? chars2) then Ok true
    else match Z_lt_dec chars2 c with
         | left _ => Ok false
         | right _ =>
             c1 <- char holder line1 word1 c ;;
             c2 <- char holder line2 word2 c ;;
             let n1 := normalizeChar c1 in
             let n2 := normalizeChar c2 in
             if n1 <? n2 then Ok true
             else if n2 <? n1 then Ok false
             else wordsLess_loop line1 word1 line2 word2 chars1 chars2 (c + 1)
         end.
Proof. lia. Qed.

Definition wordsLess (line1 word1 line2 word2 : Z) : result bool :=
  chars1 <- chars holder line1 word1 ;;
  chars2 <- chars holder line2 word2 ;;
  wordsLess_loop line1 word1 line2 word2 chars1 chars2 1.

(** The [for] loop of [linesLess], entered with the counter at [word]. *)
Equations? linesLess_loop (line1 line2 words1 words2 word : Z) : result bool
  by wf (Z.to_nat (words2 + 1 - word)) lt :=
  linesLess_loop line1 line2 words1 words2 word :=
    if (words1 <? word) && (word <=? words2) then Ok true
    else match Z_lt_dec words2 word with
         | left _ => Ok false
         | right _ =>
             lt12 <- wordsLess line1 word line2 word ;;
             if lt12 : bool then Ok true
             else lt21 <- wordsLess line2 word line1 word ;;
                  if lt21 : bool then Ok false
                  else linesLess_loop line1 line2 words1 words2 (word + 1)
         end.
Proof. lia. Qed.

Definition linesLess (line1 line2 : Z) : result bool :=
  words1 <- words holder line1 ;;
  words2 <- words holder line2 ;;
  linesLess_loop line1 line2 words1 words2 1.
End Comparator.

Record alphabetizer (T : Type) : Type := {
  alpha_storage : T;
  perm : list Z
}.
Arguments alpha_storage {T} _.
Arguments perm {T} _.

(** [make([]int, n)] *)
Definition make (n : Z) : result (list Z) :=
  if n <? 0 then Panic "makeslice: len out of range"%string
  else Ok (replicate (Z.to_nat n) 0).

Section Alphabetizer.
Context {T : Type} `{lineHolder T}.

(** One round of the loop of [quickSort], on the pair of [pivot] and the
    array. *)
Definition partition_step (holder : T) (i : Z) (st : Z * list Z) : result (Z * list Z) :=
  let (pivot, perm) := st in
  pi <- index perm i ;;
  pp <- index perm pivot ;;
  less <- linesLess holder pi pp ;;
  if less : bool then
    perm' <- (if i =? pivot + 1 then
                (* perm[pivot], perm[i] = perm[i], perm[pivot] *)
                a <- index perm i ;;
                b <- index perm pivot ;;
                perm1 <- store perm pivot a ;;
                store perm1 i b
              else
                (* perm[pivot], perm[pivot+1], perm[i] =
                     perm[i], perm[pivot], perm[pivot+1] *)
                a <- index perm i ;;
                b <- index perm pivot ;;
                c <- index perm (pivot + 1) ;;
                perm1 <- store perm pivot a ;;
                perm2 <- store perm1 (pivot + 1) b ;;
                store perm2 i c) ;;
    Ok (pivot + 1, perm')
  else Ok (pivot, perm).

(** [pivot := left; for i := pivot + 1; i < right; i++ { ... }].  The
    source's [left] and [right] are [lo] and [hi] here: Rocq has
    constructors of those names. *)
Definition partition (holder : T) (lo hi : Z) (perm : list Z) : result (Z * list Z) :=
  for_range (lo + 1) hi (partition_step holder) (lo, perm).

(** The pivot stays within the range; the recursion of [quickSort] is
    well founded by it. *)
Lemma partition_loop_pivot (holder : T) (n : nat) (i pivot pivot' : Z) (perm perm' : list Z) :
  for_loop n i (partition_step holder) (pivot, perm) = Ok (pivot', perm') ->
  pivot <= pivot' <= pivot + Z.of_nat n.
Proof.
  revert i pivot perm. induction n as [|n IH]; intros i pivot perm.
  - intros Heq. injection Heq as <- _. lia.
  - cbn [for_loop].
    destruct (partition_step holder i (pivot, perm)) as [[p1 perm1]|] eqn:Hs;
      cbn [bind result_monad]; [|intros Hl; discriminate Hl].
    intros Hl. apply IH in Hl.
    assert (pivot <= p1 <= pivot + 1); [|lia].
    unfold partition_step in Hs. cbn [bind result_monad] in Hs.
    destruct (index perm i); [|discriminate Hs].
    destruct (index perm pivot); [|discriminate Hs].
    destruct (linesLess holder a a0) as [[]|]; [| |discriminate Hs].
    + match type of Hs with
      | match ?e with _ => _ end = _ => destruct e; [|discriminate Hs]
      end.
      injection Hs as <- _. lia.
    + injection Hs as <- _. lia.
Qed.

Equations? quickSort (holder : T) (lo hi : Z) (perm : list Z) : result (list Z)
  by wf (Z.to_nat (hi - lo)) lt :=
  quickSort holder lo hi perm with inspect (hi - lo <=? 1) := {
    | exist _ true _ => Ok perm
    | exist _ false Hgt with inspect (partition holder lo hi perm) := {
        | exist _ (Ok (pivot, perm1)) Hp =>
            perm2 <- quickSort holder lo pivot perm1 ;;
            quickSort holder (pivot + 1) hi perm2
        | exist _ (Panic msg) _ => Panic msg } }.
Proof.
  all: apply partition_loop_pivot in Hp; lia.
Qed.

Definition newAlphabetizer (holder : T) : result (alphabetizer T) :=
  n <- lines holder ;;
  perm <- make n ;;
  (* for i := range perm { perm[i] = i + 1 } *)
  perm <- for_range 0 (len perm) (fun i perm => store perm i (i + 1)) perm ;;
  perm <- quickSort holder 0 (len perm) perm ;;
  ret {| alpha_storage := holder; perm := perm |}.

Definition alphabetizer_char (alpha : alphabetizer T) (line word c : Z) : result byte :=
  l <- index (perm alpha) (line - 1) ;;
  char (alpha_storage alpha) l word c.

Definition alphabetizer_lines (alpha : alphabetizer T) : result Z :=
  lines (alpha_storage alpha).

Definition alphabetizer_words (alpha : alphabetizer T) (line : Z) : result Z :=
  l <- index (perm alpha) (line - 1) ;;
  words (alpha_storage alpha) l.

Definition alphabetizer_chars (alpha : alphabetizer T) (line word : Z) : result Z :=
  l <- index (perm alpha) (line - 1) ;;
  chars (alpha_storage alpha) l word.

#[export] Instance alphabetizer_holder : lineHolder (alphabetizer T) := {
  char := alphabetizer_char;
  lines := alphabetizer_lines;
  words := alphabetizer_words;
  chars := alphabetizer_chars
}.
End Alphabetizer.

(** ** Module 5: Output *)

Section Output.
Context {T : Type} `{lineHolder T}.

(** [w.Write([]byte{b})] on a writer that keeps what it is given. *)
Definition write (b : byte) : SE (list byte) unit :=
  fun w => (w ++ [b], Ok tt).

Definition output (holder : T) : SE (list byte) unit :=
  nlines <- lift (lines holder) ;;
  for_range 1 (nlines + 1) (fun line _ =>
    nwords <- lift (words holder line) ;;
    for_range 1 (nwords + 1) (fun word _ =>
      nchars <- lift (chars holder line word) ;;
      for_range 1 (nchars + 1) (fun c _ =>
        b <- lift (char holder line word c) ;;
        write b) tt ;;;
      nwords' <- lift (words holder line) ;;
      if word <? nwords' then write space else ret tt) tt ;;;
    write newline) tt.
End Output.

(** ** Module 6: Master Control *)

(** How the process ends: normally, by [log.Fatalf] on an input error, or
    by a panic. *)
Inductive exit : Type :=
| Exit0
| Fatal (err : string)
| Panicked (msg : string).

(** [main], given what [os.Open] finds under the chosen file name: the
    bytes written to the standard output and the way the process ends. *)
Definition main (f : file) : list byte * exit :=
  match input f {| array := [] |} with
  | (_, Panic msg) => ([], Panicked msg)
  | (_, Ok (Some err)) => ([], Fatal err)
  | (storage, Ok None) =>
      match newCircularShifter storage with
      | Panic msg => ([], Panicked msg)
      | Ok shifted =>
          match newAlphabetizer shifted with
          | Panic msg => ([], Panicked msg)
          | Ok alphabetized =>
              match output alphabetized [] with
              | (out, Ok _) => (out, Exit0)
              | (out, Panic msg) => (out, Panicked msg)
              end
          end
      end
  end.

(** * Specification *)

(** ** Letters *)

Definition is_upper (c : byte) : Prop := 65 <= c <= 90.
Definition is_lower (c : byte) : Prop := 97 <= c <= 122.

(** ** Lexicographic comparison *)

(** The shape shared by the loops of [wordsLess] and [linesLess]: the first
    position where one side is smaller decides, and a sequence that runs out
    first is smaller. *)
Fixpoint lex {A : Type} (lt : A -> A -> bool) (l1 l2 : list A) : bool :=
  match l1, l2 with
  | _, [] => false
  | [], _ :: _ => true
  | x :: l1', y :: l2' =>
      if lt x y then true else if lt y x then false else lex lt l1' l2'
  end.

(** ** The text a [lineHolder] presents *)

Definition document : Type := list (list (list byte)).

(** [holder] answers for word [word] of line [line] as for the bytes [w]. *)
Definition word_is {T : Type} `{lineHolder T} (holder : T) (line word : Z)
    (w : list byte) : Prop :=
  chars holder line word = Ok (len w) /\
  forall (i : nat) (b : byte),
    w !! i = Some b -> char holder line word (Z.of_nat i + 1) = Ok b.

Definition line_is {T : Type} `{lineHolder T} (holder : T) (line : Z)
    (ws : list (list byte)) : Prop :=
  words holder line = Ok (len ws) /\
  forall (j : nat) (w : list byte),
    ws !! j = Some w -> word_is holder line (Z.of_nat j + 1) w.

(** The four operations are consistent with each other and defined on every
    index within the counts: [holder] reads as the document [doc]. *)
Definition presents {T : Type} `{lineHolder T} (holder : T) (doc : document) : Prop :=
  lines holder = Ok (len doc) /\
  forall (i : nat) (l : list (list byte)),
    doc !! i = Some l -> line_is holder (Z.of_nat i + 1) l.

(** ** The order of words and lines *)

Definition ranks (w : list byte) : list Z := map normalizeChar w.

Definition word_lt : list byte -> list byte -> bool :=
  fun a b => lex Z.ltb (ranks a) (ranks b).

Definition line_lt : list (list byte) -> list (list byte) -> bool :=
  lex word_lt.

(** The line of the document that has number [p]. *)
Definition line_at (doc : document) (p : Z) : list (list byte) :=
  default [] (doc !! Z.to_nat (p - 1)).

Definition valid_line (doc : document) (p : Z) : Prop := 1 <= p <= len doc.

(** The order of [linesLess] on line numbers. *)
Definition less (doc : document) (p q : Z) : bool :=
  line_lt (line_at doc p) (line_at doc q).

(** No line of the segment is below one that stands before it. *)
Definition sorted_lines (doc : document) (S : list Z) : Prop :=
  StronglySorted (fun a b => less doc b a = false) S.

(** ** The circular shifter *)

Definition mkShift (line word : Z) : shift :=
  {| shift_line := line; startWord := word |}.

(** The pairs of a document whose first line has number [line]: line by
    line, and within a line word by word. *)
Fixpoint shifts_from (line : Z) (doc : document) : list shift :=
  match doc with
  | [] => []
  | l :: doc' => map (mkShift line) (seqZ 1 (len l)) ++ shifts_from (line + 1) doc'
  end.

Definition total_words (doc : document) : Z :=
  fold_right (fun l n => len l + n) 0 doc.

(** The word of the source line that the shifter reads for word [word] of a
    rotation that starts at [k], in a line of [n] words. *)
Definition shifted_word (n k word : Z) : Z :=
  if n <? word + k then word + k - n else word + k.

(** The line [l] read from the word after its [k]-th word on, around the
    end. *)
Definition rotate (l : list (list byte)) (k : nat) : list (list byte) :=
  drop k l ++ take k l.

Definition rotations_of_line (l : list (list byte)) : list (list (list byte)) :=
  map (rotate l) (seq 1 (length l)).

(** The text of the shifter over [doc]. *)
Definition rotations (doc : document) : document :=
  concat (map rotations_of_line doc).

(** ** Appending to the line storage *)

(** The triples that address the position just after the stored content. *)
Definition appendable (s : lineStorage) (line word c : Z) : Prop :=
  (exists arr l w,
     array s = arr ++ [l ++ [w]] /\ line = len arr + 1 /\ word = len l + 1 /\ c = len w + 1) \/
  (exists arr l,
     array s = arr ++ [l] /\ line = len arr + 1 /\ word = len l + 1 /\ c = 1) \/
  (line = len (array s) + 1 /\ word = 1 /\ c = 1).

(** ** Emission *)

(** The bytes of a line: its words, a space after each but the last. *)
Fixpoint join_words (l : list (list byte)) : list byte :=
  match l with
  | [] => []
  | w :: l' => w ++ match l' with [] => [] | _ :: _ => space :: join_words l' end
  end.

(** The bytes of a document: each line followed by a newline. *)
Definition render (doc : document) : list byte :=
  concat (map (fun l => join_words l ++ [newline]) doc).

(** The bodies of the three loops of [output]. *)
Definition output_char {T : Type} `{lineHolder T} (holder : T) (line word : Z) :
    Z -> unit -> SE (list byte) unit :=
  fun c _ => b <- lift (char holder line word c) ;; write b.

Definition output_word {T : Type} `{lineHolder T} (holder : T) (line : Z) :
    Z -> unit -> SE (list byte) unit :=
  fun word _ =>
    nchars <- lift (chars holder line word) ;;
    for_range 1 (nchars + 1) (output_char holder line word) tt ;;;
    nwords' <- lift (words holder line) ;;
    if word <? nwords' then write space else ret tt.

Definition output_line {T : Type} `{lineHolder T} (holder : T) :
    Z -> unit -> SE (list byte) unit :=
  fun line _ =>
    nwords <- lift (words holder line) ;;
    for_range 1 (nwords + 1) (output_word holder line) tt ;;;
    write newline.

(** ** Ingestion *)

(** A byte that is stored: neither the space nor the newline. *)
Definition content (b : byte) : Prop := b <> space /\ b <> newline.

Definition well_formed_word (w : list byte) : Prop := w <> [] /\ Forall content w.

Definition well_formed_line (l : list (list byte)) : Prop :=
  l <> [] /\ Forall well_formed_word l.

(** Words of stored bytes, none empty, and no line empty. *)
Definition well_formed (doc : document) : Prop := Forall well_formed_line doc.

(** A file whose reads each deliver one byte. *)
Definition stream (bytes : list byte) : list read := map ReadByte bytes.

(** Where the counters of [input] stand against the storage: on a line
    not stored yet, on the last line at a word not stored yet, or just
    after the last stored byte. *)
Definition ingesting (s : lineStorage) (line word c : Z) : Prop :=
  1 <= word /\
  ((len (array s) + 1 <= line /\ c = 1) \/
   (exists arr l,
      array s = arr ++ [l] /\ line = len arr + 1 /\ len l + 1 <= word /\ c = 1) \/
   (exists arr l w,
      array s = arr ++ [l ++ [w]] /\ line = len arr + 1 /\ word = len l + 1 /\
      c = len w + 1)).

(** [input] on a file of bytes, into the empty storage, as [main] calls it. *)
Definition ingest (bytes : list byte) : lineStorage * result error :=
  input (Opened (stream bytes)) {| array := [] |}.

(** The run ends in one of the two out-of-sequence panics of [setWord]. *)
Definition out_of_sequence (r : lineStorage * result error) : Prop :=
  exists s msg, r = (s, Panic msg) /\ (msg = ERLSBL \/ msg = ERLSBW).

Definition separator (b : byte) : Prop := b = space \/ b = newline.

(** ** Further vocabulary *)

(** No line of the document is empty and no word of it is empty. *)
Definition no_holes (doc : document) : Prop :=
  Forall (fun l => l <> [] /\ Forall (fun w : list byte => w <> []) l) doc.

(** The bytes of a document in reading order, separators left out. *)
Definition stored_bytes (doc : document) : list byte := concat (concat doc).

(** The reads of a file without those that deliver nothing. *)
Fixpoint without_empty_reads (reads : list read) : list read :=
  match reads with
  | [] => []
  | ReadNone :: rest => without_empty_reads rest
  | r :: rest => r :: without_empty_reads rest
  end.

(** The triple is within the counts that the storage reports. *)
Definition in_bounds (s : lineStorage) (line word c : Z) : Prop :=
  exists n m k,
    lines s = Ok n /\ 1 <= line <= n /\
    words s line = Ok m /\ 1 <= word <= m /\
    chars s line word = Ok k /\ 1 <= c <= k.

Definition is_letter (c : byte) : Prop := is_upper c \/ is_lower c.

(** ** Sample texts *)

Definition sample_storage : lineStorage :=
  {| array := [[[98; 99]; [97]]; [[66; 99]]; [[98; 99]; [97]; [100]]] |}.

Definition two_words : lineStorage := {| array := [[[97]; [98]]] |}.

Definition sample_document : document := [[[116; 104; 101]; [99; 97; 116]]; [[97]]].

Definition bytes_of_string (s : string) : list byte :=
  map (fun a => Z.of_N (Ascii.N_of_ascii a)) (list_ascii_of_string s).

(** * Properties *)

(** ** Slices and loops *)

Lemma len_nonneg {A} (l : list A) : 0 <= len l.
Proof. unfold len. lia. Qed.

Lemma len_app {A} (l1 l2 : list A) : len (l1 ++ l2) = len l1 + len l2.
Proof. unfold len. rewrite length_app. lia. Qed.

Lemma len_cons {A} (x : A) (l : list A) : len (x :: l) = len l + 1.
Proof. unfold len. simpl. lia. Qed.

Lemma len_nil {A} : len (@nil A) = 0.
Proof. reflexivity. Qed.

Lemma index_Ok {A} (l : list A) (i : Z) (x : A) :
  index l i = Ok x <-> 0 <= i /\ l !! Z.to_nat i = Some x.
Proof.
  unfold index. destruct (Z.ltb_spec i 0).
  - split; [discriminate | lia].
  - destruct (l !! Z.to_nat i); split.
    + intros [= ->]. auto.
    + intros [_ [= ->]]. reflexivity.
    + discriminate.
    + intros [_ [=]].
Qed.

Lemma index_lookup {A} (l : list A) (n : nat) (x : A) :
  l !! n = Some x -> index l (Z.of_nat n) = Ok x.
Proof. intros Hl. apply index_Ok. rewrite Nat2Z.id. split; [lia | exact Hl]. Qed.

Lemma index_in_range {A} (l : list A) (i : Z) :
  0 <= i < len l -> exists x, index l i = Ok x.
Proof.
  intros Hi. unfold len in Hi.
  destruct (lookup_lt_is_Some_2 l (Z.to_nat i)) as [x Hx]; [lia|].
  exists x. apply index_Ok. split; [lia | exact Hx].
Qed.

Lemma index_out_of_range {A} (l : list A) (i : Z) :
  i < 0 \/ len l <= i -> index l i = Panic "index out of range"%string.
Proof.
  intros Hi. unfold index. destruct (Z.ltb_spec i 0); [reflexivity|].
  rewrite lookup_ge_None_2; [reflexivity|]. unfold len in Hi. lia.
Qed.

Lemma index_middle {A} (l1 l2 : list A) (x : A) :
  index (l1 ++ x :: l2) (len l1) = Ok x.
Proof. apply index_lookup, list_lookup_middle. reflexivity. Qed.

Lemma store_Ok {A} (l : list A) (i : Z) (x : A) :
  0 <= i < len l -> store l i x = Ok (<[Z.to_nat i := x]> l).
Proof.
  intros Hi. unfold store.
  destruct (Z.ltb_spec i 0); [lia|]. destruct (Z.leb_spec (len l) i); [lia|]. reflexivity.
Qed.

Lemma store_middle {A} (l1 l2 : list A) (x y : A) :
  store (l1 ++ x :: l2) (len l1) y = Ok (l1 ++ y :: l2).
Proof.
  rewrite store_Ok.
  - unfold len. rewrite Nat2Z.id.
    replace (length l1) with (length l1 + 0)%nat at 1 by lia.
    rewrite insert_app_r. reflexivity.
  - rewrite len_app, len_cons. pose proof (len_nonneg l1). pose proof (len_nonneg l2). lia.
Qed.

Lemma bind_Ok {A B} (a : A) (f : A -> result B) : bind (Ok a) f = f a.
Proof. reflexivity. Qed.

Lemma bind_Panic {A B} (msg : string) (f : A -> result B) : bind (Panic msg) f = Panic msg.
Proof. reflexivity. Qed.

Lemma for_loop_succ {M} `{Monad M} {S} (n : nat) (i : Z) (body : Z -> S -> M S) (s : S) :
  for_loop (Datatypes.S n) i body s = bind (body i s) (for_loop n (i + 1) body).
Proof. reflexivity. Qed.

Lemma for_range_empty {M} `{Monad M} {S} (lo hi : Z) (body : Z -> S -> M S) (s : S) :
  hi <= lo -> for_range lo hi body s = ret s.
Proof. intros Hle. unfold for_range. replace (Z.to_nat (hi - lo)) with O by lia. reflexivity. Qed.

Lemma for_range_first {M} `{Monad M} {S} (lo hi : Z) (body : Z -> S -> M S) (s : S) :
  lo < hi -> for_range lo hi body s = bind (body lo s) (for_range (lo + 1) hi body).
Proof.
  intros Hlt. unfold for_range.
  replace (Z.to_nat (hi - lo)) with (Datatypes.S (Z.to_nat (hi - (lo + 1)))) by lia.
  reflexivity.
Qed.

(** ** The character rank *)

Lemma normalizeChar_upper (c : byte) : is_upper c -> normalizeChar c = (c - 65) * 2.
Proof.
  unfold is_upper, normalizeChar. intros Hc.
  destruct (Z.leb_spec 65 c); [|lia]. destruct (Z.leb_spec c 90); [|lia].
  cbn [andb]. apply Z.mod_small. lia.
Qed.

Lemma normalizeChar_lower (c : byte) : is_lower c -> normalizeChar c = (c - 97) * 2 + 1.
Proof.
  unfold is_lower, normalizeChar. intros Hc.
  destruct (Z.leb_spec 65 c); destruct (Z.leb_spec c 90); try lia; cbn [andb].
  destruct (Z.leb_spec 97 c); [|lia]. destruct (Z.leb_spec c 122); [|lia].
  cbn [andb]. apply Z.mod_small. lia.
Qed.

Lemma normalizeChar_other (c : byte) : ~ is_upper c -> ~ is_lower c -> normalizeChar c = 0.
Proof.
  unfold is_upper, is_lower, normalizeChar. intros Hu Hl.
  destruct (Z.leb_spec 65 c); destruct (Z.leb_spec c 90); cbn [andb]; try lia;
    destruct (Z.leb_spec 97 c); destruct (Z.leb_spec c 122); cbn [andb]; lia.
Qed.

Lemma normalizeChar_nonneg (c : byte) : 0 <= normalizeChar c.
Proof.
  unfold normalizeChar.
  destruct ((65 <=? c) && (c <=? 90)); [apply Z.mod_pos_bound; lia|].
  destruct ((97 <=? c) && (c <=? 122)); [apply Z.mod_pos_bound; lia | lia].
Qed.

(** C6: each letter's uppercase ranks immediately before its lowercase, the
    letters rank in alphabetical order whatever their case, and every byte
    that is not a letter (the space and the digit 5 among them) has the
    lowest rank, 0. *)
Theorem normalizeChar_ranks :
  (forall k, 0 <= k <= 25 ->
     normalizeChar (65 + k) = 2 * k /\ normalizeChar (97 + k) = 2 * k + 1) /\
  (forall k, 0 <= k <= 25 -> normalizeChar (65 + k) < normalizeChar (97 + k)) /\
  (forall j k, 0 <= j -> j < k -> k <= 25 ->
     normalizeChar (97 + j) < normalizeChar (65 + k)) /\
  (forall c, ~ is_upper c -> ~ is_lower c -> normalizeChar c = 0) /\
  (forall c, 0 <= normalizeChar c) /\
  normalizeChar 32 = 0 /\ normalizeChar 53 = 0.
Proof.
  assert (Hu : forall k, 0 <= k <= 25 -> normalizeChar (65 + k) = 2 * k).
  { intros k Hk. rewrite normalizeChar_upper; unfold is_upper; lia. }
  assert (Hl : forall k, 0 <= k <= 25 -> normalizeChar (97 + k) = 2 * k + 1).
  { intros k Hk. rewrite normalizeChar_lower; unfold is_lower; lia. }
  repeat split.
  - apply Hu; lia.
  - apply Hl; lia.
  - intros k Hk. rewrite Hu, Hl; lia.
  - intros j k H0 Hjk Hk. rewrite Hu, Hl; lia.
  - apply normalizeChar_other.
  - apply normalizeChar_nonneg.
Qed.

Lemma normalizeChar_ranks_witness :
  normalizeChar 65 < normalizeChar 97 /\ normalizeChar 97 < normalizeChar 66 /\
  normalizeChar 66 < normalizeChar 98 /\ normalizeChar 49 = 0.
Proof.
  destruct normalizeChar_ranks as (_ & Hul & Hlu & Hother & _).
  split; [|split; [|split]].
  - apply (Hul 0). lia.
  - apply (Hlu 0 1); lia.
  - apply (Hul 1). lia.
  - apply Hother; unfold is_upper, is_lower; lia.
Defined.

(** ** Lexicographic comparison *)

Section Lex.
Context {A : Type} (lt : A -> A -> bool).

Hypothesis lt_irrefl : forall x, lt x x = false.
Hypothesis lt_trans : forall x y z, lt x y = true -> lt y z = true -> lt x z = true.
Hypothesis lt_negtrans : forall x y z, lt x y = false -> lt y z = false -> lt x z = false.

Lemma lex_irrefl (l : list A) : lex lt l l = false.
Proof. induction l as [|x l IH]; [reflexivity|]. simpl. rewrite lt_irrefl. exact IH. Qed.

Lemma lt_asym (x y : A) : lt x y = true -> lt y x = false.
Proof.
  intros Hxy. destruct (lt y x) eqn:Hyx; [|reflexivity].
  rewrite <- (lt_irrefl x). symmetry. eapply lt_trans; eassumption.
Qed.

Lemma lex_trans (l1 l2 l3 : list A) :
  lex lt l1 l2 = true -> lex lt l2 l3 = true -> lex lt l1 l3 = true.
Proof.
  revert l2 l3. induction l1 as [|x l1 IH]; intros [|y l2] [|z l3]; simpl; try congruence.
  destruct (lt x y) eqn:Hxy, (lt y z) eqn:Hyz, (lt x z) eqn:Hxz; try congruence;
    destruct (lt y x) eqn:Hyx; try congruence;
    destruct (lt z y) eqn:Hzy; try congruence;
    destruct (lt z x) eqn:Hzx; try congruence;
    try (pose proof (lt_trans _ _ _ Hxy Hyz); congruence);
    try (pose proof (lt_negtrans _ _ _ Hxz Hzy); congruence);
    try (pose proof (lt_negtrans _ _ _ Hyx Hxz); congruence);
    try (pose proof (lt_trans _ _ _ Hzx Hxy); congruence);
    try (pose proof (lt_negtrans _ _ _ Hzy Hyx); congruence);
    try (pose proof (lt_trans _ _ _ Hyz Hzx); congruence).
  apply IH.
Qed.

Lemma lex_negtrans (l1 l2 l3 : list A) :
  lex lt l1 l2 = false -> lex lt l2 l3 = false -> lex lt l1 l3 = false.
Proof.
  revert l2 l3. induction l1 as [|x l1 IH]; intros [|y l2] [|z l3]; simpl; try congruence.
  destruct (lt x y) eqn:Hxy, (lt y z) eqn:Hyz, (lt x z) eqn:Hxz; try congruence;
    destruct (lt y x) eqn:Hyx; try congruence;
    destruct (lt z y) eqn:Hzy; try congruence;
    destruct (lt z x) eqn:Hzx; try congruence;
    try (pose proof (lt_negtrans _ _ _ Hxy Hyz); congruence);
    try (pose proof (lt_trans _ _ _ Hzy Hyx); congruence);
    try (pose proof (lt_trans _ _ _ Hxz Hzy); congruence);
    try (pose proof (lt_trans _ _ _ Hyx Hxz); congruence);
    try (pose proof (lt_negtrans _ _ _ Hzx Hxy); congruence);
    try (pose proof (lt_negtrans _ _ _ Hyz Hzx); congruence);
    try (pose proof (lt_asym _ _ Hxz); congruence);
    try (pose proof (lt_asym _ _ Hzx); congruence).
  apply IH.
Qed.

Lemma lex_asym (l1 l2 : list A) : lex lt l1 l2 = true -> lex lt l2 l1 = false.
Proof.
  intros H12. destruct (lex lt l2 l1) eqn:H21; [|reflexivity].
  rewrite <- (lex_irrefl l1). symmetry. eapply lex_trans; eassumption.
Qed.
End Lex.

(** ** The text a [lineHolder] presents *)

Section Presents.
Context {T : Type} `{lineHolder T} (holder : T).

Lemma wordsLess_loop_lex (line1 word1 line2 word2 : Z) (pa a pb b : list byte) :
  length pa = length pb ->
  word_is holder line1 word1 (pa ++ a) ->
  word_is holder line2 word2 (pb ++ b) ->
  wordsLess_loop holder line1 word1 line2 word2 (len (pa ++ a)) (len (pb ++ b)) (len pa + 1)
  = Ok (word_lt a b).
Proof.
  intros Hlen Ha Hb. revert pa pb b Hlen Ha Hb.
  induction a as [|x a IH]; intros pa pb b Hlen Ha Hb;
    rewrite wordsLess_loop_equation_1, !len_app.
  - assert (Hpb : len pb = len pa) by (unfold len; lia).
    destruct b as [|y b].
    + rewrite len_nil, Hpb.
      destruct (Z.leb_spec (len pa + 1) (len pa + 0)); [lia|]. rewrite andb_false_r.
      destruct (Z_lt_dec (len pa + 0) (len pa + 1)); [reflexivity | lia].
    + rewrite len_nil, len_cons, Hpb. pose proof (len_nonneg b).
      destruct (Z.ltb_spec (len pa + 0) (len pa + 1)); [|lia].
      destruct (Z.leb_spec (len pa + 1) (len pa + (len b + 1))); [|lia].
      reflexivity.
  - assert (Hpb : len pb = len pa) by (unfold len; lia).
    rewrite len_cons. pose proof (len_nonneg a).
    destruct (Z.ltb_spec (len pa + (len a + 1)) (len pa + 1)); [lia|]. cbn [andb].
    destruct b as [|y b].
    + rewrite len_nil, Hpb.
      destruct (Z_lt_dec (len pa + 0) (len pa + 1)); [reflexivity | lia].
    + rewrite len_cons, Hpb. pose proof (len_nonneg b).
      destruct (Z_lt_dec (len pa + (len b + 1)) (len pa + 1)); [lia|].
      destruct Ha as [Hca Ha]. destruct Hb as [Hcb Hb].
      pose proof (Ha (length pa) x (list_lookup_middle _ _ _ _ eq_refl)) as Hx.
      pose proof (Hb (length pb) y (list_lookup_middle _ _ _ _ eq_refl)) as Hy.
      rewrite Hlen in Hx at 1. fold (len pb) in Hx, Hy. rewrite Hpb in Hx, Hy.
      rewrite Hx, Hy. cbn [bind result_monad].
      unfold word_lt, ranks. cbn [map lex].
      destruct (normalizeChar x <? normalizeChar y); [reflexivity|].
      destruct (normalizeChar y <? normalizeChar x); [reflexivity|].
      specialize (IH (pa ++ [x]) (pb ++ [y]) b).
      rewrite <- !app_assoc in IH. cbn [app] in IH.
      rewrite !len_app, !len_cons, !len_nil, Hpb in IH.
      replace (len pa + (0 + 1) + 1) with (len pa + 1 + 1) in IH by lia.
      apply IH.
      * rewrite !length_app. simpl. lia.
      * split; assumption.
      * split; assumption.
Qed.

Lemma wordsLess_lex (line1 word1 line2 word2 : Z) (a b : list byte) :
  word_is holder line1 word1 a ->
  word_is holder line2 word2 b ->
  wordsLess holder line1 word1 line2 word2 = Ok (word_lt a b).
Proof.
  intros Ha Hb. unfold wordsLess.
  rewrite (proj1 Ha), (proj1 Hb). cbn [bind result_monad].
  apply (wordsLess_loop_lex line1 word1 line2 word2 [] a [] b); auto.
Qed.
Lemma linesLess_loop_lex (line1 line2 : Z) (pa a pb b : list (list byte)) :
  length pa = length pb ->
  line_is holder line1 (pa ++ a) ->
  line_is holder line2 (pb ++ b) ->
  linesLess_loop holder line1 line2 (len (pa ++ a)) (len (pb ++ b)) (len pa + 1)
  = Ok (line_lt a b).
Proof.
  intros Hlen Ha Hb. revert pa pb b Hlen Ha Hb.
  induction a as [|x a IH]; intros pa pb b Hlen Ha Hb;
    rewrite linesLess_loop_equation_1, !len_app.
  - assert (Hpb : len pb = len pa) by (unfold len; lia).
    destruct b as [|y b].
    + rewrite len_nil, Hpb.
      destruct (Z.leb_spec (len pa + 1) (len pa + 0)); [lia|]. rewrite andb_false_r.
      destruct (Z_lt_dec (len pa + 0) (len pa + 1)); [reflexivity | lia].
    + rewrite len_nil, len_cons, Hpb. pose proof (len_nonneg b).
      destruct (Z.ltb_spec (len pa + 0) (len pa + 1)); [|lia].
      destruct (Z.leb_spec (len pa + 1) (len pa + (len b + 1))); [|lia].
      reflexivity.
  - assert (Hpb : len pb = len pa) by (unfold len; lia).
    rewrite len_cons. pose proof (len_nonneg a).
    destruct (Z.ltb_spec (len pa + (len a + 1)) (len pa + 1)); [lia|]. cbn [andb].
    destruct b as [|y b].
    + rewrite len_nil, Hpb.
      destruct (Z_lt_dec (len pa + 0) (len pa + 1)); [reflexivity | lia].
    + rewrite len_cons, Hpb. pose proof (len_nonneg b).
      destruct (Z_lt_dec (len pa + (len b + 1)) (len pa + 1)); [lia|].
      destruct Ha as [Hca Ha]. destruct Hb as [Hcb Hb].
      pose proof (Ha (length pa) x (list_lookup_middle _ _ _ _ eq_refl)) as Hx.
      pose proof (Hb (length pb) y (list_lookup_middle _ _ _ _ eq_refl)) as Hy.
      rewrite Hlen in Hx at 1. fold (len pb) in Hx, Hy. rewrite Hpb in Hx, Hy.
      rewrite (wordsLess_lex _ _ _ _ x y Hx Hy), (wordsLess_lex _ _ _ _ y x Hy Hx).
      cbn [bind result_monad].
      unfold line_lt. cbn [lex].
      destruct (word_lt x y); [reflexivity|]. cbn [bind result_monad].
      destruct (word_lt y x); [reflexivity|].
      specialize (IH (pa ++ [x]) (pb ++ [y]) b).
      rewrite <- !app_assoc in IH. cbn [app] in IH.
      rewrite !len_app, !len_cons, !len_nil, Hpb in IH.
      replace (len pa + (0 + 1) + 1) with (len pa + 1 + 1) in IH by lia.
      apply IH.
      * rewrite !length_app. simpl. lia.
      * split; assumption.
      * split; assumption.
Qed.

Lemma linesLess_lex (line1 line2 : Z) (a b : list (list byte)) :
  line_is holder line1 a ->
  line_is holder line2 b ->
  linesLess holder line1 line2 = Ok (line_lt a b).
Proof.
  intros Ha Hb. unfold linesLess.
  rewrite (proj1 Ha), (proj1 Hb). cbn [bind result_monad].
  apply (linesLess_loop_lex line1 line2 [] a [] b); auto.
Qed.

(** A line number within the count reads as a line of the document. *)
Lemma presents_line (doc : document) (line : Z) :
  presents holder doc -> 1 <= line <= len doc ->
  exists l, doc !! Z.to_nat (line - 1) = Some l /\ line_is holder line l.
Proof.
  intros [_ Hdoc] Hline. unfold len in Hline.
  destruct (lookup_lt_is_Some_2 doc (Z.to_nat (line - 1))) as [l Hl]; [lia|].
  exists l. split; [exact Hl|].
  replace line with (Z.of_nat (Z.to_nat (line - 1)) + 1) by lia.
  apply Hdoc, Hl.
Qed.
End Presents.

(** ** The order of words and lines *)

Ltac rank_order :=
  intros; rewrite ?Z.ltb_lt, ?Z.ltb_ge in *; try apply Z.ltb_irrefl; lia.

Lemma word_lt_irrefl (a : list byte) : word_lt a a = false.
Proof. apply lex_irrefl, Z.ltb_irrefl. Qed.

Lemma word_lt_trans (a b c : list byte) :
  word_lt a b = true -> word_lt b c = true -> word_lt a c = true.
Proof.
  apply lex_trans; rank_order.
Qed.

Lemma word_lt_negtrans (a b c : list byte) :
  word_lt a b = false -> word_lt b c = false -> word_lt a c = false.
Proof.
  apply lex_negtrans; rank_order.
Qed.

Ltac word_order :=
  first [apply word_lt_irrefl | apply word_lt_trans | apply word_lt_negtrans].

Lemma line_lt_irrefl (a : list (list byte)) : line_lt a a = false.
Proof. apply lex_irrefl, word_lt_irrefl. Qed.

Lemma line_lt_trans (a b c : list (list byte)) :
  line_lt a b = true -> line_lt b c = true -> line_lt a c = true.
Proof.
  apply lex_trans; word_order.
Qed.

Lemma line_lt_negtrans (a b c : list (list byte)) :
  line_lt a b = false -> line_lt b c = false -> line_lt a c = false.
Proof.
  apply lex_negtrans; word_order.
Qed.

Lemma line_lt_asym (a b : list (list byte)) : line_lt a b = true -> line_lt b a = false.
Proof. apply lex_asym; word_order. Qed.

Lemma lex_connex {A} (lt : A -> A -> bool) :
  (forall x y, lt x y = false -> lt y x = false -> x = y) ->
  forall l1 l2, lex lt l1 l2 = false -> lex lt l2 l1 = false -> l1 = l2.
Proof.
  intros Hlt. induction l1 as [|x l1 IH]; intros [|y l2]; cbn [lex]; try congruence.
  destruct (lt x y) eqn:Hxy; [congruence|]. destruct (lt y x) eqn:Hyx; [congruence|].
  intros H1 H2. rewrite (Hlt x y Hxy Hyx). f_equal. apply IH; assumption.
Qed.

Lemma lex_map {A B} (f : A -> B) (lt : B -> B -> bool) (l1 l2 : list A) :
  lex (fun a b => lt (f a) (f b)) l1 l2 = lex lt (map f l1) (map f l2).
Proof.
  revert l2. induction l1 as [|x l1 IH]; intros [|y l2]; cbn [lex map]; try reflexivity.
  rewrite IH. reflexivity.
Qed.

Lemma line_lt_ranks (x y : list (list byte)) :
  line_lt x y = lex (lex Z.ltb) (map ranks x) (map ranks y).
Proof. unfold line_lt, word_lt. apply (lex_map ranks (lex Z.ltb)). Qed.

(** Lines that are equal for the order have the same ranks, and lines of
    the same ranks are equal for it. *)
Lemma line_lt_equal (a b : list (list byte)) :
  line_lt a b = false /\ line_lt b a = false <-> map ranks a = map ranks b.
Proof.
  rewrite !line_lt_ranks. split.
  - intros [H1 H2]. revert H1 H2. apply lex_connex.
    apply lex_connex. intros x y. rewrite !Z.ltb_ge. lia.
  - intros ->. rewrite lex_irrefl; [auto|]. intros r. apply lex_irrefl, Z.ltb_irrefl.
Qed.

(** C5: on a text that keeps the read contract, [linesLess] answers for all
    lines within the count and is a strict total order up to equal lines.
    It is irreflexive, transitive and asymmetric.  Of two lines one is
    below the other unless they are equal, that is, have the same number of
    words and word for word the same ranks; equal lines are below each other
    in neither direction.  Not being below is transitive, and so is being
    equal for the order. *)
Theorem linesLess_strict_order {T : Type} `{lineHolder T} (holder : T) (doc : document)
    (a b c : Z) :
  presents holder doc ->
  1 <= a <= len doc -> 1 <= b <= len doc -> 1 <= c <= len doc ->
  linesLess holder a a = Ok false /\
  (exists r, linesLess holder a b = Ok r) /\
  (linesLess holder a b = Ok true -> linesLess holder b c = Ok true ->
   linesLess holder a c = Ok true) /\
  (linesLess holder a b = Ok true -> linesLess holder b a = Ok false) /\
  (linesLess holder a b = Ok true \/ linesLess holder b a = Ok true \/
   map ranks (line_at doc a) = map ranks (line_at doc b)) /\
  (map ranks (line_at doc a) = map ranks (line_at doc b) <->
   linesLess holder a b = Ok false /\ linesLess holder b a = Ok false) /\
  (linesLess holder a b = Ok false -> linesLess holder b c = Ok false ->
   linesLess holder a c = Ok false) /\
  (linesLess holder a b = Ok false /\ linesLess holder b a = Ok false ->
   linesLess holder b c = Ok false /\ linesLess holder c b = Ok false ->
   linesLess holder a c = Ok false /\ linesLess holder c a = Ok false).
Proof.
  intros Hdoc Ha Hb Hc.
  destruct (presents_line holder doc a Hdoc Ha) as (la & Hda & Hla).
  destruct (presents_line holder doc b Hdoc Hb) as (lb & Hdb & Hlb).
  destruct (presents_line holder doc c Hdoc Hc) as (lc & _ & Hlc).
  assert (Hat : line_at doc a = la) by (unfold line_at; rewrite Hda; reflexivity).
  assert (Hbt : line_at doc b = lb) by (unfold line_at; rewrite Hdb; reflexivity).
  rewrite Hat, Hbt.
  rewrite (linesLess_lex holder a a la la Hla Hla).
  rewrite (linesLess_lex holder a b la lb Hla Hlb).
  rewrite (linesLess_lex holder b c lb lc Hlb Hlc).
  rewrite (linesLess_lex holder a c la lc Hla Hlc).
  rewrite (linesLess_lex holder b a lb la Hlb Hla).
  rewrite (linesLess_lex holder c b lc lb Hlc Hlb).
  rewrite (linesLess_lex holder c a lc la Hlc Hla).
  rewrite line_lt_irrefl.
  split; [reflexivity|]. split; [eexists; reflexivity|].
  split; [intros [= H1] [= H2]; f_equal; eapply line_lt_trans; eassumption|].
  split; [intros [= H1]; f_equal; apply line_lt_asym, H1|].
  split.
  { destruct (line_lt la lb) eqn:Hab; [left; reflexivity|].
    destruct (line_lt lb la) eqn:Hba; [right; left; reflexivity|].
    right; right. apply line_lt_equal. split; assumption. }
  split.
  { split.
    - intros Heq. apply line_lt_equal in Heq as [H1 H2]. rewrite H1, H2.
      split; reflexivity.
    - intros [[= H1] [= H2]]. apply line_lt_equal. split; assumption. }
  split.
  { intros [= H1] [= H2]. f_equal. eapply line_lt_negtrans; eassumption. }
  intros [[= Hab] [= Hba]] [[= Hbc] [= Hcb]]. split; f_equal.
  - apply (line_lt_negtrans la lb lc); assumption.
  - apply (line_lt_negtrans lc lb la); assumption.
Qed.

(** ** The line storage reads as its array *)

Lemma index_succ_pred {A} (l : list A) (n : nat) (x : A) :
  l !! n = Some x -> index l (Z.of_nat n + 1 - 1) = Ok x.
Proof. intros Hl. replace (Z.of_nat n + 1 - 1) with (Z.of_nat n) by lia. apply index_lookup, Hl. Qed.

Lemma lineStorage_presents (storage : lineStorage) : presents storage (array storage).
Proof.
  split; [reflexivity|]. intros i l Hl. split.
  - cbn [words lineStorage_holder]. unfold lineStorage_words.
    rewrite (index_succ_pred _ _ _ Hl). reflexivity.
  - intros j w Hw. split.
    + cbn [chars lineStorage_holder]. unfold lineStorage_chars.
      rewrite (index_succ_pred _ _ _ Hl). cbn [bind result_monad].
      rewrite (index_succ_pred _ _ _ Hw). reflexivity.
    + intros k b Hb. cbn [char lineStorage_holder]. unfold lineStorage_char.
      rewrite (index_succ_pred _ _ _ Hl). cbn [bind result_monad].
      rewrite (index_succ_pred _ _ _ Hw). cbn [bind result_monad].
      apply (index_succ_pred _ _ _ Hb).
Qed.

Lemma linesLess_strict_order_witness :
  linesLess sample_storage 2 2 = Ok false /\
  (exists r, linesLess sample_storage 2 1 = Ok r) /\
  (linesLess sample_storage 2 1 = Ok true -> linesLess sample_storage 1 3 = Ok true ->
   linesLess sample_storage 2 3 = Ok true) /\
  (linesLess sample_storage 2 1 = Ok true -> linesLess sample_storage 1 2 = Ok false) /\
  (linesLess sample_storage 2 1 = Ok true \/ linesLess sample_storage 1 2 = Ok true \/
   map ranks (line_at (array sample_storage) 2) = map ranks (line_at (array sample_storage) 1)) /\
  (map ranks (line_at (array sample_storage) 2) = map ranks (line_at (array sample_storage) 1) <->
   linesLess sample_storage 2 1 = Ok false /\ linesLess sample_storage 1 2 = Ok false) /\
  (linesLess sample_storage 2 1 = Ok false -> linesLess sample_storage 1 3 = Ok false ->
   linesLess sample_storage 2 3 = Ok false) /\
  (linesLess sample_storage 2 1 = Ok false /\ linesLess sample_storage 1 2 = Ok false ->
   linesLess sample_storage 1 3 = Ok false /\ linesLess sample_storage 3 1 = Ok false ->
   linesLess sample_storage 2 3 = Ok false /\ linesLess sample_storage 3 2 = Ok false).
Proof.
  apply (linesLess_strict_order sample_storage (array sample_storage) 2 1 3).
  - apply lineStorage_presents.
  - vm_compute. split; discriminate.
  - vm_compute. split; discriminate.
  - vm_compute. split; discriminate.
Defined.

(** C10: ['A'] has rank 0, the rank of every byte that is not a letter, so
    those bytes are not strictly below all letters, and two words that
    differ only in one position, ['A'] in the one and a byte that is not a
    letter in the other, are equal for [wordsLess]. *)
Theorem normalizeChar_A_shares_rank_zero :
  normalizeChar 65 = 0 /\ normalizeChar 32 = 0 /\ normalizeChar 53 = 0 /\
  (forall c, ~ is_upper c -> ~ is_lower c -> normalizeChar c = normalizeChar 65) /\
  ~ (forall c l, ~ is_upper c -> ~ is_lower c -> is_upper l \/ is_lower l ->
       normalizeChar c < normalizeChar l) /\
  (forall (T : Type) (HT : lineHolder T) (holder : T) (line1 word1 line2 word2 : Z)
          (pre post : list byte) (c : byte),
     ~ is_upper c -> ~ is_lower c ->
     word_is holder line1 word1 (pre ++ 65 :: post) ->
     word_is holder line2 word2 (pre ++ c :: post) ->
     wordsLess holder line1 word1 line2 word2 = Ok false /\
     wordsLess holder line2 word2 line1 word1 = Ok false).
Proof.
  split; [reflexivity|]. split; [reflexivity|]. split; [reflexivity|].
  split; [|split].
  - intros c Hu Hl. rewrite normalizeChar_other by assumption. reflexivity.
  - intros Hall. specialize (Hall 32 65).
    assert (normalizeChar 32 < normalizeChar 65) as Hlt.
    { apply Hall; unfold is_upper, is_lower; lia. }
    vm_compute in Hlt. discriminate Hlt.
  - intros T HT holder line1 word1 line2 word2 pre post c Hu Hl H1 H2.
    rewrite (wordsLess_lex holder _ _ _ _ _ _ H1 H2).
    rewrite (wordsLess_lex holder _ _ _ _ _ _ H2 H1).
    assert (Heq : ranks (pre ++ 65 :: post) = ranks (pre ++ c :: post)).
    { unfold ranks. rewrite !map_app. cbn [map].
      rewrite (normalizeChar_other c) by assumption. reflexivity. }
    unfold word_lt. rewrite Heq, lex_irrefl by apply Z.ltb_irrefl. auto.
Qed.

Lemma normalizeChar_A_shares_rank_zero_witness :
  wordsLess {| array := [[[98; 65]; [98; 53]]] |} 1 1 1 2 = Ok false /\
  wordsLess {| array := [[[98; 65]; [98; 53]]] |} 1 2 1 1 = Ok false.
Proof.
  destruct normalizeChar_A_shares_rank_zero as (_ & _ & _ & _ & _ & Hwords).
  destruct (lineStorage_presents {| array := [[[98; 65]; [98; 53]]] |}) as [_ Hdoc].
  destruct (Hdoc 0%nat _ eq_refl) as [_ Hline].
  apply (Hwords _ _ _ 1 1 1 2 [98] [] 53).
  - unfold is_upper. lia.
  - unfold is_lower. lia.
  - apply (Hline 0%nat _ eq_refl).
  - apply (Hline 1%nat _ eq_refl).
Defined.

(** ** The circular shifter *)

Lemma for_loop_collect {A} (f : Z -> A) (n : nat) (i : Z) (acc : list A) :
  for_loop n i (fun w (s : list A) => Ok (s ++ [f w])) acc
  = Ok (acc ++ map f (seqZ i (Z.of_nat n))).
Proof.
  revert i acc. induction n as [|n IH]; intros i acc.
  - cbn [for_loop ret result_monad]. rewrite seqZ_nil by lia. cbn [map].
    rewrite app_nil_r. reflexivity.
  - rewrite for_loop_succ. cbn [bind result_monad]. rewrite IH.
    rewrite (seqZ_cons i (Z.of_nat (S n))) by lia. cbn [map].
    rewrite <- app_assoc. cbn [app].
    replace (Z.pred (Z.of_nat (S n))) with (Z.of_nat n) by lia.
    replace (Z.succ i) with (i + 1) by lia. reflexivity.
Qed.

Lemma len_shifts_from (line : Z) (doc : document) :
  len (shifts_from line doc) = total_words doc.
Proof.
  revert line. induction doc as [|l doc IH]; intros line; [reflexivity|].
  cbn [shifts_from total_words fold_right]. rewrite len_app, IH. f_equal.
  unfold len. rewrite length_map, length_seqZ. rewrite Nat2Z.id. reflexivity.
Qed.

Section ShifterFacts.
Context {T : Type} `{lineHolder T} (holder : T).

Lemma shifter_lines_loop (pre doc : document) (acc : list shift) :
  (forall (i : nat) (l : list (list byte)),
     doc !! i = Some l -> line_is holder (len pre + Z.of_nat i + 1) l) ->
  for_loop (length doc) (len pre + 1)
    (fun line shs =>
       nwords <- words holder line ;;
       for_range 1 (nwords + 1)
         (fun word shs => ret (shs ++ [{| shift_line := line; startWord := word |}])) shs)
    acc
  = Ok (acc ++ shifts_from (len pre + 1) doc).
Proof.
  revert pre acc. induction doc as [|l doc IH]; intros pre acc Hdoc.
  - cbn [length for_loop ret result_monad shifts_from]. rewrite app_nil_r. reflexivity.
  - cbn [length]. rewrite for_loop_succ.
    destruct (Hdoc O l eq_refl) as [Hw _].
    replace (len pre + Z.of_nat 0 + 1) with (len pre + 1) in Hw by lia.
    rewrite Hw. cbn [bind result_monad]. unfold for_range.
    replace (Z.to_nat (len l + 1 - 1)) with (length l) by (unfold len; lia).
    change (fun (word : Z) (shs : list shift) =>
              ret (shs ++ [{| shift_line := len pre + 1; startWord := word |}]))
      with (fun (word : Z) (shs : list shift) => Ok (shs ++ [mkShift (len pre + 1) word])).
    rewrite for_loop_collect. fold (len l). cbn [bind result_monad].
    specialize (IH (pre ++ [l]) (acc ++ map (mkShift (len pre + 1)) (seqZ 1 (len l)))).
    rewrite len_app, len_cons, len_nil in IH.
    replace (len pre + (0 + 1) + 1) with (len pre + 1 + 1) in IH by lia.
    etransitivity; [apply IH|].
    + intros i l' Hl'. specialize (Hdoc (S i) l' Hl').
      replace (len pre + (0 + 1) + Z.of_nat i + 1) with (len pre + Z.of_nat (S i) + 1) by lia.
      exact Hdoc.
    + cbn [shifts_from]. rewrite <- app_assoc. reflexivity.
Qed.

Lemma newCircularShifter_presents (doc : document) :
  presents holder doc ->
  newCircularShifter holder
  = Ok {| shifter_storage := holder; shifts := shifts_from 1 doc |}.
Proof.
  intros [Hlines Hdoc]. unfold newCircularShifter. rewrite Hlines, bind_Ok.
  unfold for_range at 1.
  replace (Z.to_nat (len doc + 1 - 1)) with (length doc) by (unfold len; lia).
  pose proof (shifter_lines_loop [] doc []) as Hloop.
  rewrite len_nil in Hloop. cbn [app] in Hloop. change (0 + 1) with 1 in Hloop.
  rewrite Hloop; [reflexivity|].
  intros i l Hl. replace (0 + Z.of_nat i + 1) with (Z.of_nat i + 1) by lia.
  apply Hdoc, Hl.
Qed.
End ShifterFacts.

(** C9: the shifter built over a text that reads as the document [doc] has
    one line per word of [doc], its pairs listed line by line and, within a
    line, word by word; its line count is the sum of the word counts. *)
Theorem circularShifter_lines_total {T : Type} `{lineHolder T} (holder : T) (doc : document) :
  presents holder doc ->
  exists shifter,
    newCircularShifter holder = Ok shifter /\
    shifts shifter = shifts_from 1 doc /\
    lines shifter = Ok (total_words doc).
Proof.
  intros Hdoc. eexists. split; [apply newCircularShifter_presents, Hdoc|].
  split; [reflexivity|].
  cbn [lines circularShifter_holder shifts]. unfold circularShifter_lines. cbn [shifts].
  rewrite len_shifts_from. reflexivity.
Qed.

Lemma circularShifter_lines_total_witness :
  exists shifter,
    newCircularShifter sample_storage = Ok shifter /\
    shifts shifter = shifts_from 1 (array sample_storage) /\
    lines shifter = Ok (total_words (array sample_storage)).
Proof.
  apply (circularShifter_lines_total sample_storage (array sample_storage)).
  apply lineStorage_presents.
Defined.

Lemma circularShifter_char_shifted {T : Type} `{lineHolder T}
    (shifter : circularShifter T) (line word c l k n : Z) :
  index (shifts shifter) (line - 1) = Ok (mkShift l k) ->
  words (shifter_storage shifter) l = Ok n ->
  char shifter line word c = char (shifter_storage shifter) l (shifted_word n k word) c.
Proof.
  intros Hsh Hn. cbn [char circularShifter_holder]. unfold circularShifter_char.
  rewrite Hsh, bind_Ok. cbn [shift_line startWord mkShift]. rewrite Hn, bind_Ok.
  reflexivity.
Qed.

(** Word 1 of the rotation with [startWord = k] is word [k + 1] of the
    source line, and word 1 when [k] is the last word. *)
Lemma shifted_word_one (n k : Z) :
  1 <= k <= n -> shifted_word n k 1 = if k =? n then 1 else k + 1.
Proof.
  intros Hk. unfold shifted_word.
  destruct (Z.ltb_spec n (1 + k)); destruct (Z.eqb_spec k n); lia.
Qed.

(** C1, on the line of the two words [a] and [b]: the first rotation has
    [startWord = 1], and its word 1 reads [b], the second word of the line,
    where the line's word 1 reads [a]. *)
Theorem circularShifter_start_word_off_by_one :
  exists shifter,
    newCircularShifter two_words = Ok shifter /\
    index (shifts shifter) 0 = Ok {| shift_line := 1; startWord := 1 |} /\
    char shifter 1 1 1 = Ok 98 /\
    char two_words 1 1 1 = Ok 97.
Proof.
  eexists. split; [vm_compute; reflexivity|]. repeat split.
Qed.

(** ** Appending to the line storage *)

Ltac zbool :=
  repeat match goal with
  | |- context [?a <? ?b] =>
      first [rewrite (proj2 (Z.ltb_lt a b)) by lia | rewrite (proj2 (Z.ltb_ge a b)) by lia]
  | |- context [?a <=? ?b] =>
      first [rewrite (proj2 (Z.leb_le a b)) by lia | rewrite (proj2 (Z.leb_gt a b)) by lia]
  | |- context [?a =? ?b] =>
      first [rewrite (proj2 (Z.eqb_eq a b)) by lia | rewrite (proj2 (Z.eqb_neq a b)) by lia]
  end.

Ltac se_step :=
  cbn [bind ret SE_monad result_monad array orb andb negb
       lines words chars lineStorage_holder].

Lemma index_last {A} (l : list A) (x : A) (i : Z) :
  i = len l -> index (l ++ [x]) i = Ok x.
Proof. intros ->. apply index_middle. Qed.

Lemma store_last {A} (l : list A) (x y : A) (i : Z) :
  i = len l -> store (l ++ [x]) i y = Ok (l ++ [y]).
Proof. intros ->. apply store_middle. Qed.

Lemma appendWord_last (arr : document) (l : list (list byte)) (line : Z) :
  line = len arr + 1 ->
  appendWord line {| array := arr ++ [l] |} = ({| array := arr ++ [l ++ [[]]] |}, Ok tt).
Proof.
  intros ->. unfold appendWord, get, lift, put. se_step.
  rewrite index_last by lia. rewrite store_last by lia. reflexivity.
Qed.

Lemma appendByte_last (arr : document) (l : list (list byte)) (w : list byte)
    (line word : Z) (v : byte) :
  line = len arr + 1 -> word = len l + 1 ->
  appendByte line word v {| array := arr ++ [l ++ [w]] |}
  = ({| array := arr ++ [l ++ [w ++ [v]]] |}, Ok tt).
Proof.
  intros -> ->. unfold appendByte, get, lift, put. se_step.
  rewrite index_last by lia. rewrite index_last by lia.
  rewrite store_last by lia. rewrite store_last by lia. reflexivity.
Qed.

Lemma lineStorage_words_last (arr : document) (l : list (list byte)) (line : Z) :
  line = len arr + 1 -> lineStorage_words {| array := arr ++ [l] |} line = Ok (len l).
Proof. intros ->. unfold lineStorage_words. se_step. rewrite index_last by lia. reflexivity. Qed.

Lemma lineStorage_chars_last (arr : document) (l : list (list byte)) (w : list byte)
    (line word : Z) :
  line = len arr + 1 -> word = len l + 1 ->
  lineStorage_chars {| array := arr ++ [l ++ [w]] |} line word = Ok (len w).
Proof.
  intros -> ->. unfold lineStorage_chars. se_step.
  rewrite index_last by lia. rewrite index_last by lia. reflexivity.
Qed.

Lemma setWord_unfold (line word c : Z) (v : byte) (s : lineStorage) :
  setWord line word c v s =
  let n := len (array s) in
  if (line <? n) || (n + 1 <? line) then (s, Panic ERLSBL) else
  match (if line =? n then lineStorage_words s line else Ok 0) with
  | Panic m => (s, Panic m)
  | Ok nwords =>
    if (word <? nwords) || (nwords + 1 <? word) then (s, Panic ERLSBW) else
    match (if (line =? n) && (word =? nwords) then lineStorage_chars s line word else Ok 0) with
    | Panic m => (s, Panic m)
    | Ok nchars =>
      if negb (c =? nchars + 1) then (s, Panic ERLSBC) else
      let s1 := if line =? n + 1 then {| array := array s ++ [[]] |} else s in
      match (if word =? nwords + 1 then appendWord line s1 else (s1, Ok tt)) with
      | (s2, Ok _) => appendByte line word v s2
      | (s2, Panic m) => (s2, Panic m)
      end
    end
  end.
Proof.
  unfold setWord, get, lift, panic, put. se_step. unfold lineStorage_lines.
  cbv zeta.
  destruct ((line <? len (array s)) || (len (array s) + 1 <? line)); [reflexivity|].
  destruct (line =? len (array s)); se_step.
  - destruct (lineStorage_words s line) as [nwords|]; [|reflexivity].
    destruct ((word <? nwords) || (nwords + 1 <? word)); [reflexivity|].
    destruct (word =? nwords); se_step.
    + destruct (lineStorage_chars s line word) as [nchars|]; [|reflexivity].
      destruct (c =? nchars + 1); se_step; [|reflexivity].
      destruct (line =? len (array s) + 1), (word =? nwords + 1); reflexivity.
    + destruct (c =? 0 + 1); se_step; [|reflexivity].
      destruct (line =? len (array s) + 1), (word =? nwords + 1); reflexivity.
  - destruct ((word <? 0) || (0 + 1 <? word)); [reflexivity|].
    destruct (c =? 0 + 1); se_step; [|reflexivity].
    destruct (line =? len (array s) + 1), (word =? 0 + 1); reflexivity.
Qed.

(** (c) the first character of the first word of a new line *)
Lemma setWord_new_line (arr : document) (v : byte) :
  setWord (len arr + 1) 1 1 v {| array := arr |} = ({| array := arr ++ [[[v]]] |}, Ok tt).
Proof.
  rewrite setWord_unfold. cbv zeta. se_step.
  zbool. se_step. zbool. se_step.
  rewrite (appendWord_last arr []) by lia.
  rewrite (appendByte_last arr [] []); [reflexivity | lia | reflexivity].
Qed.

(** (b) the first character of a new word of the last line *)
Lemma setWord_new_word (arr : document) (l : list (list byte)) (v : byte) :
  setWord (len arr + 1) (len l + 1) 1 v {| array := arr ++ [l] |}
  = ({| array := arr ++ [l ++ [[v]]] |}, Ok tt).
Proof.
  rewrite setWord_unfold. cbv zeta. se_step.
  rewrite len_app, len_cons, len_nil.
  zbool. se_step. rewrite lineStorage_words_last by lia.
  pose proof (len_nonneg l).
  zbool. se_step. zbool. se_step.
  rewrite (appendWord_last arr l) by lia.
  rewrite (appendByte_last arr l []); [reflexivity | lia | reflexivity].
Qed.

(** (a) the next character of the last word of the last line *)
Lemma setWord_next_char (arr : document) (l : list (list byte)) (w : list byte) (v : byte) :
  setWord (len arr + 1) (len l + 1) (len w + 1) v {| array := arr ++ [l ++ [w]] |}
  = ({| array := arr ++ [l ++ [w ++ [v]]] |}, Ok tt).
Proof.
  rewrite setWord_unfold. cbv zeta. se_step.
  rewrite len_app, len_cons, len_nil.
  zbool. se_step. rewrite lineStorage_words_last by lia.
  rewrite len_app, len_cons, len_nil.
  pose proof (len_nonneg l).
  zbool. se_step. rewrite lineStorage_chars_last by lia.
  zbool. se_step.
  rewrite (appendByte_last arr l w); [reflexivity | lia | lia].
Qed.

Lemma len_snoc {A} (l : list A) (x : A) : len (l ++ [x]) = len l + 1.
Proof. rewrite len_app. reflexivity. Qed.

Ltac len_simpl :=
  repeat first [rewrite len_snoc in * | rewrite len_app in * | rewrite len_cons in *];
  repeat match goal with
         | |- context [@len ?A []] => change (@len A []) with 0
         | H : context [@len ?A []] |- _ => change (@len A []) with 0 in H
         end.

Ltac setWord_run :=
  rewrite setWord_unfold; cbv zeta; se_step; rewrite ?len_snoc;
  repeat first
    [ progress zbool
    | progress se_step
    | match goal with
      | H : lineStorage_words _ _ = Ok _ |- _ => rewrite H
      | H : lineStorage_chars _ _ _ = Ok _ |- _ => rewrite H
      end ].

Lemma setWord_appendable (line word c : Z) (v : byte) (s : lineStorage) :
  appendable s line word c -> exists s', setWord line word c v s = (s', Ok tt).
Proof.
  destruct s as [a]. unfold appendable. cbn [array].
  intros [(arr & l & w & -> & -> & -> & ->) | [(arr & l & -> & -> & -> & ->) | (-> & -> & ->)]];
    eexists.
  - apply setWord_next_char.
  - apply setWord_new_word.
  - apply setWord_new_line.
Qed.

Lemma snoc_cases {A} (l : list A) : l = [] \/ exists l' x, l = l' ++ [x].
Proof. destruct l as [|x l] using rev_ind; [left; reflexivity | right; eauto]. Qed.

Ltac appendable_cases Ha :=
  unfold appendable; cbn [array];
  intros [(? & ? & ? & Ha & ? & ? & ?) | [(? & ? & Ha & ? & ? & ?) | (? & ? & ?)]].

(** What [setWord] does on every triple: it appends at an appendable one;
    at the first word 0 of a new line it leaves an empty line behind and
    panics on the index; everywhere else it panics on unchanged content. *)
Lemma setWord_cases (line word c : Z) (v : byte) (s : lineStorage) :
  (appendable s line word c /\ exists s', setWord line word c v s = (s', Ok tt)) \/
  (~ appendable s line word c /\ exists msg, setWord line word c v s = (s, Panic msg)) \/
  (~ appendable s line word c /\
   line = len (array s) + 1 /\ word = 0 /\ c = 1 /\
   setWord line word c v s
   = ({| array := array s ++ [[]] |}, Panic "index out of range"%string)).
Proof.
  destruct s as [a]. cbn [array].
  assert (Hsnoc : forall (arr : document) l, a = arr ++ [l] -> len a = len arr + 1).
  { intros arr l ->. apply len_snoc. }
  pose proof (len_nonneg a) as Hn.
  destruct (Z.lt_trichotomy line (len a)) as [Hlt | [Heq | Hgt]].
  - (* a line before the last *)
    right. left. split.
    + appendable_cases Ha;
        try apply Hsnoc in Ha; lia.
    + exists ERLSBL. setWord_run. reflexivity.
  - (* the last line *)
    subst line. destruct (snoc_cases a) as [-> | (arr & l & ->)].
    + right. left. split.
      * appendable_cases Ha;
          try (apply eq_sym, app_eq_nil in Ha; destruct Ha as [_ Ha]; discriminate Ha).
        change (@len (list (list byte)) []) with 0 in *. lia.
      * eexists. setWord_run. reflexivity.
    + len_simpl. pose proof (len_nonneg arr).
      pose proof (len_nonneg l).
      assert (Hw : lineStorage_words {| array := arr ++ [l] |} (len arr + 1) = Ok (len l))
        by (apply lineStorage_words_last; lia).
      destruct (Z.lt_trichotomy word (len l)) as [Hwlt | [Hweq | Hwgt]].
      * right. left. split.
        -- appendable_cases Ha;
             try (apply app_inj_tail in Ha; destruct Ha as [-> ->]);
             len_simpl; lia.
        -- exists ERLSBW. setWord_run. reflexivity.
      * subst word. destruct (snoc_cases l) as [-> | (l' & w & ->)].
        -- right. left. split.
           ++ appendable_cases Ha;
                try (apply app_inj_tail in Ha; destruct Ha as [-> Hl]);
                try (apply eq_sym, app_eq_nil in Hl; destruct Hl as [_ Hl]; discriminate Hl);
                try subst;
                len_simpl; lia.
           ++ eexists. setWord_run. unfold lineStorage_chars. se_step.
              rewrite index_last by lia. reflexivity.
        -- len_simpl. pose proof (len_nonneg l').
           pose proof (len_nonneg w).
           assert (Hc : lineStorage_chars {| array := arr ++ [l' ++ [w]] |}
                          (len arr + 1) (len l' + 1) = Ok (len w))
             by (apply lineStorage_chars_last; lia).
           destruct (Z.eq_dec c (len w + 1)) as [-> | Hc'].
           ++ left. assert (Happ : appendable {| array := arr ++ [l' ++ [w]] |}
                                     (len arr + 1) (len l' + 1) (len w + 1)).
              { left. exists arr, l', w. cbn [array]. repeat split; lia. }
              split; [exact Happ | apply setWord_appendable, Happ].
           ++ right. left. split.
              ** appendable_cases Ha;
                   try (apply app_inj_tail in Ha; destruct Ha as [-> Hl]);
                   try (apply app_inj_tail in Hl; destruct Hl as [-> ->]);
                   try subst;
                   len_simpl; lia.
              ** exists ERLSBC. setWord_run. reflexivity.
      * destruct (Z.eq_dec word (len l + 1)) as [-> | Hw1].
        -- destruct (Z.eq_dec c 1) as [-> | Hc1].
           ++ left. assert (Happ : appendable {| array := arr ++ [l] |}
                                     (len arr + 1) (len l + 1) 1).
              { right. left. exists arr, l. cbn [array]. repeat split; lia. }
              split; [exact Happ | apply setWord_appendable, Happ].
           ++ right. left. split.
              ** appendable_cases Ha;
                   try (apply app_inj_tail in Ha; destruct Ha as [-> ->]);
                   len_simpl; lia.
              ** exists ERLSBC. setWord_run. reflexivity.
        -- right. left. split.
           ++ appendable_cases Ha;
                try (apply app_inj_tail in Ha; destruct Ha as [-> ->]);
                len_simpl; lia.
           ++ exists ERLSBW. setWord_run. reflexivity.
  - (* past the last line *)
    assert (Hno : forall w' c', ~ (w' = 1 /\ c' = 1) \/ line <> len a + 1 ->
                    ~ appendable {| array := a |} line w' c').
    { intros w' c' Hor. unfold appendable; cbn [array].
      intros [(arr & l & w & Ha & ? & ? & ?) | [(arr & l & Ha & ? & ? & ?) | (? & ? & ?)]];
        try apply Hsnoc in Ha; lia. }
    destruct (Z.eq_dec line (len a + 1)) as [-> | Hl1].
    + destruct (Z.eq_dec word 1) as [-> | Hw1].
      * destruct (Z.eq_dec c 1) as [-> | Hc1].
        -- left. assert (Happ : appendable {| array := a |} (len a + 1) 1 1).
           { right. right. cbn [array]. auto. }
           split; [exact Happ | apply setWord_appendable, Happ].
        -- right. left. split; [apply Hno; lia|].
           exists ERLSBC. setWord_run. reflexivity.
      * destruct (Z.eq_dec word 0) as [-> | Hw0].
        -- destruct (Z.eq_dec c 1) as [-> | Hc1].
           ++ right. right. split; [apply Hno; lia|]. repeat split.
              setWord_run. unfold appendByte, get, lift, put. se_step.
              rewrite index_last by lia. se_step. reflexivity.
           ++ right. left. split; [apply Hno; lia|].
              exists ERLSBC. setWord_run. reflexivity.
        -- right. left. split; [apply Hno; lia|].
           exists ERLSBW. setWord_run.
           assert (Hb : (word <? 0) || (0 + 1 <? word) = true).
           { destruct (Z.ltb_spec word 0); [reflexivity|].
             destruct (Z.ltb_spec (0 + 1) word); [reflexivity | lia]. }
           rewrite Hb. reflexivity.
    + right. left. split; [apply Hno; lia|].
      exists ERLSBL. setWord_run. reflexivity.
Qed.

Lemma setWord_succeeds_iff (line word c : Z) (v : byte) (s : lineStorage) :
  (exists s', setWord line word c v s = (s', Ok tt)) <-> appendable s line word c.
Proof.
  split; [|apply setWord_appendable].
  intros [s' Hs'].
  destruct (setWord_cases line word c v s)
    as [[Happ _] | [[_ [msg Hm]] | (_ & _ & _ & _ & Hm)]];
    [exact Happ | rewrite Hm in Hs'; discriminate Hs' ..].
Qed.

(** A refused triple leaves the content as it was, except word 0 of a new
    line. *)
Lemma setWord_failure_state (line word c : Z) (v : byte) (s s' : lineStorage) (msg : string) :
  setWord line word c v s = (s', Panic msg) ->
  s' = s \/
  (line = len (array s) + 1 /\ word = 0 /\ c = 1 /\ s' = {| array := array s ++ [[]] |}).
Proof.
  intros Hs'.
  destruct (setWord_cases line word c v s)
    as [[_ [s'' Hm]] | [[_ [msg' Hm]] | (_ & Hl & Hw & Hc & Hm)]];
    rewrite Hm in Hs'.
  - discriminate Hs'.
  - injection Hs' as <- _. left. reflexivity.
  - injection Hs' as <- _. right. auto.
Qed.

(** C8, at word 0 of a new line: the triple is not appendable, the guards
    let it through, and [setWord] has already stored an empty line when the
    index fails. *)
Theorem setWord_word_zero_of_new_line (s : lineStorage) (v : byte) :
  ~ appendable s (len (array s) + 1) 0 1 /\
  setWord (len (array s) + 1) 0 1 v s
  = ({| array := array s ++ [[]] |}, Panic "index out of range"%string).
Proof.
  assert (Hgoal : setWord (len (array s) + 1) 0 1 v s
                  = ({| array := array s ++ [[]] |}, Panic "index out of range"%string)).
  { setWord_run. unfold appendByte, get, lift, put. se_step.
    rewrite index_last by lia. reflexivity. }
  split; [|exact Hgoal].
  intros Happ. apply (setWord_appendable _ _ _ v) in Happ.
  destruct Happ as [s' Hs']. rewrite Hgoal in Hs'. discriminate Hs'.
Qed.

(** ** Emission *)

Section OutputFacts.
Context {T : Type} `{lineHolder T} (holder : T).

Lemma output_unfold :
  output holder
  = (nlines <- lift (lines holder) ;; for_range 1 (nlines + 1) (output_line holder) tt).
Proof. reflexivity. Qed.

Lemma SE_bind_lift {S A B} (r : result A) (a : A) (f : A -> SE S B) (s : S) :
  r = Ok a -> bind (lift r) f s = f a s.
Proof. intros ->. reflexivity. Qed.

Lemma SE_bind_Ok {S A B} (m : SE S A) (f : A -> SE S B) (s s' : S) (a : A) :
  m s = (s', Ok a) -> bind m f s = f a s'.
Proof. intros Hm. cbn [bind SE_monad]. rewrite Hm. reflexivity. Qed.

Lemma output_chars_loop (line word : Z) (pre w : list byte) (wr : list byte) :
  word_is holder line word (pre ++ w) ->
  for_loop (length w) (len pre + 1) (output_char holder line word) tt wr = (wr ++ w, Ok tt).
Proof.
  revert pre wr. induction w as [|b w IH]; intros pre wr Hw.
  - cbn [length for_loop ret SE_monad]. rewrite app_nil_r. reflexivity.
  - cbn [length]. rewrite for_loop_succ.
    assert (Hb : output_char holder line word (len pre + 1) tt wr = (wr ++ [b], Ok tt)).
    { unfold output_char. erewrite SE_bind_lift; [reflexivity|].
      apply (proj2 Hw (length pre) b), list_lookup_middle. reflexivity. }
    rewrite (SE_bind_Ok _ _ _ _ _ Hb).
    specialize (IH (pre ++ [b]) (wr ++ [b])). rewrite len_snoc in IH.
    rewrite IH; [rewrite <- app_assoc; reflexivity|].
    rewrite <- app_assoc. exact Hw.
Qed.

Lemma output_words_loop (line : Z) (pre l : list (list byte)) (wr : list byte) :
  line_is holder line (pre ++ l) ->
  for_loop (length l) (len pre + 1) (output_word holder line) tt wr = (wr ++ join_words l, Ok tt).
Proof.
  revert pre wr. induction l as [|w l IH]; intros pre wr Hl.
  - cbn [length for_loop ret SE_monad join_words]. rewrite app_nil_r. reflexivity.
  - cbn [length]. rewrite for_loop_succ.
    assert (Hw : word_is holder line (len pre + 1) w).
    { apply (proj2 Hl (length pre) w), list_lookup_middle. reflexivity. }
    assert (Hb : output_word holder line (len pre + 1) tt wr
                 = (wr ++ w ++ match l with [] => [] | _ :: _ => [space] end, Ok tt)).
    { unfold output_word. erewrite SE_bind_lift by apply (proj1 Hw).
      unfold for_range.
      replace (Z.to_nat (len w + 1 - 1)) with (length w) by (unfold len; lia).
      pose proof (output_chars_loop line (len pre + 1) [] w wr Hw) as Hc.
      change (len [] + 1) with 1 in Hc.
      rewrite (SE_bind_Ok _ _ _ _ _ Hc).
      erewrite SE_bind_lift by apply (proj1 Hl).
      rewrite len_app, len_cons.
      destruct l as [|w' l].
      - change (len []) with 0. zbool. cbn [ret SE_monad]. rewrite app_nil_r. reflexivity.
      - rewrite len_cons. pose proof (len_nonneg l). zbool. cbv iota. unfold write.
        rewrite <- app_assoc. reflexivity. }
    rewrite (SE_bind_Ok _ _ _ _ _ Hb).
    specialize (IH (pre ++ [w])). rewrite len_snoc in IH.
    rewrite IH by (rewrite <- app_assoc; exact Hl).
    cbn [join_words]. rewrite <- !app_assoc. destruct l; reflexivity.
Qed.

Lemma output_lines_loop (pre doc : document) (wr : list byte) :
  (forall (i : nat) (l : list (list byte)),
     doc !! i = Some l -> line_is holder (len pre + Z.of_nat i + 1) l) ->
  for_loop (length doc) (len pre + 1) (output_line holder) tt wr = (wr ++ render doc, Ok tt).
Proof.
  revert pre wr. induction doc as [|l doc IH]; intros pre wr Hdoc.
  - cbn [length for_loop ret SE_monad]. unfold render. cbn [map concat].
    rewrite app_nil_r. reflexivity.
  - cbn [length]. rewrite for_loop_succ.
    assert (Hl : line_is holder (len pre + 1) l).
    { replace (len pre + 1) with (len pre + Z.of_nat 0 + 1) by lia. apply Hdoc. reflexivity. }
    assert (Hb : output_line holder (len pre + 1) tt wr = (wr ++ join_words l ++ [newline], Ok tt)).
    { unfold output_line. erewrite SE_bind_lift by apply (proj1 Hl).
      unfold for_range.
      replace (Z.to_nat (len l + 1 - 1)) with (length l) by (unfold len; lia).
      pose proof (output_words_loop (len pre + 1) [] l wr Hl) as Hc.
      change (len [] + 1) with 1 in Hc.
      rewrite (SE_bind_Ok _ _ _ _ _ Hc). unfold write. rewrite <- app_assoc. reflexivity. }
    rewrite (SE_bind_Ok _ _ _ _ _ Hb).
    specialize (IH (pre ++ [l])). rewrite len_snoc in IH.
    rewrite IH.
    + unfold render. cbn [map concat]. rewrite <- !app_assoc. reflexivity.
    + intros i l' Hl'. specialize (Hdoc (S i) l' Hl').
      replace (len pre + 1 + Z.of_nat i + 1) with (len pre + Z.of_nat (S i) + 1) by lia.
      exact Hdoc.
Qed.

(** Emission writes the text it is given, whatever view presents it. *)
Lemma output_presents (doc : document) (wr : list byte) :
  presents holder doc -> output holder wr = (wr ++ render doc, Ok tt).
Proof.
  intros [Hlines Hdoc]. rewrite output_unfold.
  erewrite SE_bind_lift by exact Hlines. unfold for_range.
  replace (Z.to_nat (len doc + 1 - 1)) with (length doc) by (unfold len; lia).
  pose proof (output_lines_loop [] doc wr) as Hloop.
  change (len [] + 1) with 1 in Hloop. apply Hloop.
  intros i l Hl. change (len []) with 0. rewrite Z.add_0_l. apply Hdoc, Hl.
Qed.
End OutputFacts.

(** ** Ingestion *)

Lemma stream_app (a b : list byte) : stream (a ++ b) = stream a ++ stream b.
Proof. apply map_app. Qed.

Lemma input_loop_content (b : byte) (rest : list read) (line word c : Z) (s : lineStorage) :
  content b ->
  input_loop (ReadByte b :: rest) line word c s
  = bind (setWord line word c b) (fun _ => input_loop rest line word (c + 1)) s.
Proof.
  intros [Hs Hn]. cbn [input_loop].
  rewrite (proj2 (Z.eqb_neq b space) Hs), (proj2 (Z.eqb_neq b newline) Hn). reflexivity.
Qed.

Lemma input_word_tail (w w0 : list byte) (arr : document) (l : list (list byte))
    (rest : list read) :
  Forall content w ->
  input_loop (stream w ++ rest) (len arr + 1) (len l + 1) (len w0 + 1)
    {| array := arr ++ [l ++ [w0]] |}
  = input_loop rest (len arr + 1) (len l + 1) (len (w0 ++ w) + 1)
      {| array := arr ++ [l ++ [w0 ++ w]] |}.
Proof.
  intros Hw. revert w0. induction Hw as [|b w Hb Hw IH]; intros w0.
  - rewrite app_nil_r. reflexivity.
  - cbn [stream map app]. rewrite input_loop_content by exact Hb.
    rewrite (SE_bind_Ok _ _ _ _ _ (setWord_next_char arr l w0 b)).
    specialize (IH (w0 ++ [b])). rewrite len_snoc in IH.
    rewrite <- app_assoc in IH. exact IH.
Qed.

Lemma input_word_new (w : list byte) (arr : document) (l : list (list byte))
    (rest : list read) :
  well_formed_word w ->
  input_loop (stream w ++ rest) (len arr + 1) (len l + 1) 1 {| array := arr ++ [l] |}
  = input_loop rest (len arr + 1) (len l + 1) (len w + 1) {| array := arr ++ [l ++ [w]] |}.
Proof.
  intros [Hne Hw]. destruct w as [|b w]; [congruence|].
  apply Forall_cons in Hw as [Hb Hw].
  cbn [stream map app]. rewrite input_loop_content by exact Hb.
  rewrite (SE_bind_Ok _ _ _ _ _ (setWord_new_word arr l b)).
  apply (input_word_tail w [b] arr l rest Hw).
Qed.

Lemma input_line_new (w : list byte) (arr : document) (rest : list read) :
  well_formed_word w ->
  input_loop (stream w ++ rest) (len arr + 1) 1 1 {| array := arr |}
  = input_loop rest (len arr + 1) 1 (len w + 1) {| array := arr ++ [[w]] |}.
Proof.
  intros [Hne Hw]. destruct w as [|b w]; [congruence|].
  apply Forall_cons in Hw as [Hb Hw].
  cbn [stream map app]. rewrite input_loop_content by exact Hb.
  rewrite (SE_bind_Ok _ _ _ _ _ (setWord_new_line arr b)).
  apply (input_word_tail w [b] arr [] rest Hw).
Qed.

Lemma join_words_cons (w : list byte) (ws : list (list byte)) :
  join_words (w :: ws) = w ++ concat (map (cons space) ws).
Proof.
  revert w. induction ws as [|w' ws IH]; intros w; [reflexivity|].
  change (join_words (w :: w' :: ws)) with (w ++ space :: join_words (w' :: ws)).
  rewrite IH. reflexivity.
Qed.

Lemma input_words_rest (ws l0 : list (list byte)) (arr : document) (rest : list read) (c : Z) :
  Forall well_formed_word ws ->
  exists c',
    input_loop (stream (concat (map (cons space) ws)) ++ rest) (len arr + 1) (len l0) c
      {| array := arr ++ [l0] |}
    = input_loop rest (len arr + 1) (len (l0 ++ ws)) c' {| array := arr ++ [l0 ++ ws] |}.
Proof.
  intros Hws. revert l0 c. induction Hws as [|w ws Hw Hws IH]; intros l0 c.
  - exists c. rewrite app_nil_r. reflexivity.
  - cbn [map concat]. rewrite stream_app, <- app_assoc.
    change (stream (space :: w)) with (ReadByte space :: stream w).
    cbn [app input_loop]. change (space =? space) with true. cbv iota.
    rewrite input_word_new by exact Hw.
    destruct (IH (l0 ++ [w]) (len w + 1)) as [c' Hc']. exists c'.
    rewrite len_snoc, <- app_assoc in Hc'. exact Hc'.
Qed.

Lemma input_line (l : list (list byte)) (arr : document) (rest : list read) :
  well_formed_line l ->
  exists c,
    input_loop (stream (join_words l) ++ rest) (len arr + 1) 1 1 {| array := arr |}
    = input_loop rest (len arr + 1) (len l) c {| array := arr ++ [l] |}.
Proof.
  intros [Hne Hl]. destruct l as [|w ws]; [congruence|].
  apply Forall_cons in Hl as [Hw Hws].
  rewrite join_words_cons, stream_app, <- app_assoc.
  rewrite input_line_new by exact Hw.
  destruct (input_words_rest ws [w] arr rest (len w + 1) Hws) as [c Hc].
  exists c. exact Hc.
Qed.

Lemma input_document (doc arr : document) (rest : list read) :
  well_formed doc ->
  input_loop (stream (render doc) ++ rest) (len arr + 1) 1 1 {| array := arr |}
  = input_loop rest (len (arr ++ doc) + 1) 1 1 {| array := arr ++ doc |}.
Proof.
  intros Hdoc. revert arr. induction Hdoc as [|l doc Hl Hdoc IH]; intros arr.
  - rewrite app_nil_r. reflexivity.
  - unfold render. cbn [map concat]. fold (render doc).
    rewrite !stream_app, <- !app_assoc.
    destruct (input_line l arr (stream [newline] ++ stream (render doc) ++ rest) Hl)
      as [c Hc].
    rewrite Hc. cbn [stream map app input_loop].
    change (newline =? space) with false. change (newline =? newline) with true. cbv iota.
    specialize (IH (arr ++ [l])). rewrite len_snoc, <- app_assoc in IH. exact IH.
Qed.

Lemma input_well_formed (doc : document) (bytes : list byte) :
  well_formed doc ->
  bytes = render doc \/ bytes ++ [newline] = render doc ->
  input (Opened (stream bytes)) {| array := [] |} = ({| array := doc |}, Ok None).
Proof.
  intros Hdoc Hbytes. cbn [input]. destruct Hbytes as [-> | Hb].
  - pose proof (input_document doc [] [] Hdoc) as Hd.
    rewrite app_nil_r in Hd. exact Hd.
  - destruct (snoc_cases doc) as [-> | (doc' & l & ->)].
    { destruct bytes; discriminate Hb. }
    apply Forall_app in Hdoc as [Hdoc' Hl]. apply Forall_cons in Hl as [Hl _].
    unfold render in Hb. rewrite map_app, concat_app in Hb. cbn [map concat] in Hb.
    rewrite app_nil_r, app_assoc in Hb. apply app_inj_tail in Hb as [-> _].
    fold (render doc'). rewrite stream_app.
    pose proof (input_document doc' [] (stream (join_words l)) Hdoc') as Hd.
    cbn [app] in Hd. change (len [] + 1) with 1 in Hd. rewrite Hd.
    destruct (input_line l doc' [] Hl) as [c Hc].
    rewrite app_nil_r in Hc. rewrite Hc. reflexivity.
Qed.

(** C4: a document of stored bytes, with single spaces between the words of
    a line and a newline after each line, the last newline present or not,
    is ingested without error and emitted again as it was, the last
    newline added when it was missing. *)
Theorem input_output_round_trip (doc : document) (bytes : list byte) :
  well_formed doc ->
  bytes = render doc \/ bytes ++ [newline] = render doc ->
  input (Opened (stream bytes)) {| array := [] |} = ({| array := doc |}, Ok None) /\
  output {| array := doc |} [] = (render doc, Ok tt).
Proof.
  intros Hdoc Hbytes. split.
  - apply input_well_formed; assumption.
  - apply (output_presents {| array := doc |} doc []), lineStorage_presents.
Qed.

Lemma input_output_round_trip_witness :
  input (Opened (stream [116; 104; 101; 32; 99; 97; 116; 10; 97])) {| array := [] |}
  = ({| array := sample_document |}, Ok None) /\
  output {| array := sample_document |} [] = (render sample_document, Ok tt).
Proof.
  apply (input_output_round_trip sample_document).
  - repeat first [apply Forall_cons; split | apply Forall_nil | split | discriminate].
  - right. reflexivity.
Defined.

(** ** Empty words and empty lines *)

Lemma SE_bind_Panic {S A B} (m : SE S A) (f : A -> SE S B) (s s' : S) (msg : string) :
  m s = (s', Panic msg) -> bind m f s = (s', Panic msg).
Proof. intros Hm. cbn [bind SE_monad]. rewrite Hm. reflexivity. Qed.

Lemma input_loop_space (rest : list read) (line word c : Z) :
  input_loop (ReadByte space :: rest) line word c = input_loop rest line (word + 1) 1.
Proof. reflexivity. Qed.

Lemma input_loop_newline (rest : list read) (line word c : Z) :
  input_loop (ReadByte newline :: rest) line word c = input_loop rest (line + 1) 1 1.
Proof. reflexivity. Qed.

Lemma ingesting_start : ingesting {| array := [] |} 1 1 1.
Proof. split; [lia|]. left. cbn [array]. change (len []) with 0. lia. Qed.

Lemma ingesting_line_bound (s : lineStorage) (line word c : Z) :
  ingesting s line word c -> len (array s) <= line.
Proof.
  intros [_ [[Hl _] | [(arr & l & Ha & Hl & _) | (arr & l & w & Ha & Hl & _)]]];
    try rewrite Ha; len_simpl; lia.
Qed.

Lemma ingesting_space (s : lineStorage) (line word c : Z) :
  ingesting s line word c -> ingesting s line (word + 1) 1.
Proof.
  intros [Hw [[Hl _] | [(arr & l & Ha & Hl & Hlw & _) | (arr & l & w & Ha & Hl & Hlw & _)]]];
    (split; [lia|]).
  - left. lia.
  - right. left. exists arr, l. repeat split; [assumption | lia ..].
  - right. left. exists arr, (l ++ [w]). rewrite len_snoc. repeat split; [assumption | lia ..].
Qed.

Lemma ingesting_newline (s : lineStorage) (line word c : Z) :
  ingesting s line word c -> ingesting s (line + 1) 1 1.
Proof.
  intros Hin. pose proof (ingesting_line_bound _ _ _ _ Hin).
  split; [lia|]. left. lia.
Qed.

Lemma ingesting_content (s : lineStorage) (line word c : Z) (b : byte) :
  ingesting s line word c ->
  (exists s', setWord line word c b s = (s', Ok tt) /\ ingesting s' line word (c + 1)) \/
  (exists msg, setWord line word c b s = (s, Panic msg) /\ (msg = ERLSBL \/ msg = ERLSBW)).
Proof.
  destruct s as [a]. unfold ingesting. cbn [array].
  intros [Hw [[Hl ->] | [(arr & l & -> & -> & Hlw & ->) | (arr & l & w & -> & -> & -> & ->)]]].
  - pose proof (len_nonneg a).
    destruct (Z.eq_dec line (len a + 1)) as [-> | Hne].
    + destruct (Z.eq_dec word 1) as [-> | Hw1].
      * left. eexists. split; [apply setWord_new_line|]. cbn [array].
        split; [lia|]. right. right. exists a, [], [b]. repeat split.
      * right. exists ERLSBW. split; [|auto]. setWord_run. reflexivity.
    + right. exists ERLSBL. split; [|auto]. setWord_run. reflexivity.
  - pose proof (len_nonneg arr). pose proof (len_nonneg l).
    assert (Hws : lineStorage_words {| array := arr ++ [l] |} (len arr + 1) = Ok (len l))
      by (apply lineStorage_words_last; lia).
    destruct (Z.eq_dec word (len l + 1)) as [-> | Hne].
    + left. eexists. split; [apply setWord_new_word|]. cbn [array].
      split; [lia|]. right. right. exists arr, l, [b]. repeat split.
    + right. exists ERLSBW. split; [|auto]. setWord_run. reflexivity.
  - left. eexists. split; [apply setWord_next_char|]. cbn [array].
    split; [lia|]. right. right. exists arr, l, (w ++ [b]). rewrite len_snoc. repeat split.
Qed.

(** Two words ahead of the counter nothing can be stored. *)
Lemma ingesting_word_gap (s : lineStorage) (line word c word' : Z) (b : byte) :
  ingesting s line word c -> word + 1 < word' ->
  exists msg, setWord line word' 1 b s = (s, Panic msg) /\ (msg = ERLSBL \/ msg = ERLSBW).
Proof.
  destruct s as [a]. unfold ingesting. cbn [array].
  intros [Hw [[Hl _] | [(arr & l & -> & -> & Hlw & _) | (arr & l & w & -> & -> & -> & _)]]] Hgap.
  - pose proof (len_nonneg a).
    destruct (Z.eq_dec line (len a + 1)) as [-> | Hne].
    + exists ERLSBW. split; [|auto]. setWord_run. reflexivity.
    + exists ERLSBL. split; [|auto]. setWord_run. reflexivity.
  - pose proof (len_nonneg arr). pose proof (len_nonneg l).
    assert (Hws : lineStorage_words {| array := arr ++ [l] |} (len arr + 1) = Ok (len l))
      by (apply lineStorage_words_last; lia).
    exists ERLSBW. split; [|auto]. setWord_run. reflexivity.
  - pose proof (len_nonneg arr). pose proof (len_nonneg l).
    assert (Hws : lineStorage_words {| array := arr ++ [l ++ [w]] |} (len arr + 1)
                  = Ok (len l + 1))
      by (rewrite lineStorage_words_last by lia; rewrite len_snoc; reflexivity).
    exists ERLSBW. split; [|auto]. setWord_run. reflexivity.
Qed.

(** Two lines ahead of the counter nothing can be stored. *)
Lemma ingesting_line_gap (s : lineStorage) (line word c line' word' c' : Z) (b : byte) :
  ingesting s line word c -> line + 1 < line' ->
  setWord line' word' c' b s = (s, Panic ERLSBL).
Proof.
  intros Hin Hgap. apply ingesting_line_bound in Hin.
  pose proof (len_nonneg (array s)). setWord_run. reflexivity.
Qed.

Section IngestPrefix.
Variable rest : list read.
Hypothesis rest_fails :
  forall s line word c,
    ingesting s line word c -> out_of_sequence (input_loop rest line word c s).

Lemma input_loop_prefix (pre : list byte) (s : lineStorage) (line word c : Z) :
  ingesting s line word c ->
  out_of_sequence (input_loop (stream pre ++ rest) line word c s).
Proof.
  revert s line word c. induction pre as [|x pre IH]; intros s line word c Hin.
  - apply rest_fails, Hin.
  - destruct (Z.eq_dec x space) as [-> | Hsp].
    + cbn [stream map app input_loop]. change (space =? space) with true. cbv iota.
      apply IH, (ingesting_space _ _ _ _ Hin).
    + destruct (Z.eq_dec x newline) as [-> | Hnl].
      * cbn [stream map app input_loop].
        change (newline =? space) with false. change (newline =? newline) with true.
        cbv iota. apply IH, (ingesting_newline _ _ _ _ Hin).
      * change (stream (x :: pre) ++ rest) with (ReadByte x :: stream pre ++ rest).
        rewrite input_loop_content by (split; assumption).
        destruct (ingesting_content s line word c x Hin)
          as [(s' & Hs' & Hin') | (msg & Hmsg & Hor)].
        -- rewrite (SE_bind_Ok _ _ _ _ _ Hs'). apply IH, Hin'.
        -- rewrite (SE_bind_Panic _ _ _ _ _ Hmsg). exists s, msg. auto.
Qed.
End IngestPrefix.

Lemma input_loop_separators (seps : list byte) (s : lineStorage) (line word c : Z) :
  Forall separator seps -> input_loop (stream seps) line word c s = (s, Ok None).
Proof.
  intros Hseps. revert line word c.
  induction Hseps as [|x seps [-> | ->] _ IH]; intros line word c; [reflexivity | |];
    cbn [stream map input_loop].
  - change (space =? space) with true. cbv iota. apply IH.
  - change (newline =? space) with false. change (newline =? newline) with true.
    cbv iota. apply IH.
Qed.

Lemma input_loop_trailing (bytes seps : list byte) (s0 s : lineStorage) (line word c : Z) :
  Forall separator seps ->
  input_loop (stream bytes) line word c s0 = (s, Ok None) ->
  input_loop (stream (bytes ++ seps)) line word c s0 = (s, Ok None).
Proof.
  intros Hseps. revert s0 line word c.
  induction bytes as [|x bytes IH]; intros s0 line word c.
  - cbn [stream map app input_loop ret SE_monad]. intros [= <-].
    apply input_loop_separators, Hseps.
  - cbn [stream map app input_loop].
    destruct (x =? space); [apply IH|]. destruct (x =? newline); [apply IH|].
    cbn [bind SE_monad]. destruct (setWord line word c x s0) as [s1 [[]|msg]].
    + apply IH.
    + intros [=].
Qed.

(** C2 as stated fails: a leading space before a byte is fatal, and a
    trailing empty word or line is accepted but not stored, so it is not
    emitted again. *)
Lemma input_empty_word_counterexample :
  ingest [32; 97] = ({| array := [] |}, Panic ERLSBW) /\
  ingest [97; 10; 10; 98] = ({| array := [[[97]]] |}, Panic ERLSBL) /\
  ingest [97; 32; 10; 10] = ({| array := [[[97]]] |}, Ok None) /\
  output {| array := [[[97]]] |} [] = ([97; 10], Ok tt).
Proof. repeat split. Qed.

(** C2, amended: ingestion checks nothing itself, but storing goes through
    [setWord], which has no place for an empty word or an empty line.  A
    stored byte right after two spaces, after two newlines or after a
    leading separator ends the run in an out-of-sequence panic; separators
    that no stored byte follows are accepted and leave no trace. *)
Theorem input_empty_words_and_lines :
  (forall pre post b, content b ->
     out_of_sequence (ingest (pre ++ [space; space; b] ++ post))) /\
  (forall pre post b, content b ->
     out_of_sequence (ingest (pre ++ [newline; newline; b] ++ post))) /\
  (forall sep post b, content b -> separator sep ->
     out_of_sequence (ingest (sep :: b :: post))) /\
  (forall bytes seps s, Forall separator seps ->
     ingest bytes = (s, Ok None) -> ingest (bytes ++ seps) = (s, Ok None)).
Proof.
  split; [|split; [|split]].
  - intros pre post b Hb. unfold ingest. cbn [input]. rewrite stream_app.
    apply input_loop_prefix; [|apply ingesting_start].
    intros s line word c Hin. rewrite stream_app. cbn [stream map app].
    rewrite !input_loop_space, input_loop_content by exact Hb.
    destruct (ingesting_word_gap s line word c (word + 1 + 1) b Hin) as (msg & Hmsg & Hor);
      [lia|].
    rewrite (SE_bind_Panic _ _ _ _ _ Hmsg). exists s, msg. auto.
  - intros pre post b Hb. unfold ingest. cbn [input]. rewrite stream_app.
    apply input_loop_prefix; [|apply ingesting_start].
    intros s line word c Hin. rewrite stream_app. cbn [stream map app].
    rewrite !input_loop_newline, input_loop_content by exact Hb.
    rewrite (SE_bind_Panic _ _ _ _ _
               (ingesting_line_gap s line word c (line + 1 + 1) 1 1 b Hin ltac:(lia))).
    exists s, ERLSBL. auto.
  - intros sep post b Hb [-> | ->]; unfold ingest; cbn [input stream map].
    + rewrite input_loop_space, input_loop_content by exact Hb.
      eexists _, ERLSBW. split; [|auto]. apply SE_bind_Panic. setWord_run. reflexivity.
    + rewrite input_loop_newline, input_loop_content by exact Hb.
      eexists _, ERLSBL. split; [|auto]. apply SE_bind_Panic. setWord_run. reflexivity.
  - intros bytes seps s Hseps. unfold ingest. cbn [input]. apply input_loop_trailing, Hseps.
Qed.

Lemma input_empty_words_and_lines_witness :
  out_of_sequence (ingest ([97] ++ [space; space; 98] ++ [10])) /\
  out_of_sequence (ingest ([97] ++ [newline; newline; 98] ++ [])) /\
  out_of_sequence (ingest (space :: 97 :: [])) /\
  ingest ([97; 32; 98] ++ [32; 10; 10]) = ({| array := [[[97]; [98]]] |}, Ok None).
Proof.
  destruct input_empty_words_and_lines as (Hsp & Hnl & Hlead & Htrail).
  assert (Hc : forall b, b <> 32 -> b <> 10 -> content b) by (intros b ? ?; split; assumption).
  split; [|split; [|split]].
  - apply Hsp, Hc; discriminate.
  - apply Hnl, Hc; discriminate.
  - apply Hlead; [apply Hc; discriminate | left; reflexivity].
  - apply Htrail; [|reflexivity].
    repeat (apply Forall_cons; split; [first [left; reflexivity | right; reflexivity]|]).
    constructor.
Defined.

(** ** The alphabetizer *)

Lemma index_at {A} (l l1 l2 : list A) (x : A) (i : Z) :
  l = l1 ++ x :: l2 -> i = len l1 -> index l i = Ok x.
Proof. intros -> ->. apply index_middle. Qed.

Lemma store_at {A} (l l1 l2 : list A) (x y : A) (i : Z) :
  l = l1 ++ x :: l2 -> i = len l1 -> store l i y = Ok (l1 ++ y :: l2).
Proof. intros -> ->. apply store_middle. Qed.

Ltac list_eq := rewrite <- ?app_assoc; cbn [app]; rewrite <- ?app_assoc; reflexivity.
Ltac len_eq := len_simpl; lia.

Section SortFacts.
Context {T : Type} `{lineHolder T} (holder : T) (doc : document).
Hypothesis holder_presents : presents holder doc.

Lemma line_at_is (p : Z) : valid_line doc p -> line_is holder p (line_at doc p).
Proof.
  intros Hp. destruct (presents_line holder doc p holder_presents Hp) as (l & Hl & His).
  unfold line_at. rewrite Hl. exact His.
Qed.

Lemma linesLess_less (p q : Z) :
  valid_line doc p -> valid_line doc q -> linesLess holder p q = Ok (less doc p q).
Proof. intros Hp Hq. apply linesLess_lex; apply line_at_is; assumption. Qed.

Lemma less_asym (p q : Z) : less doc p q = true -> less doc q p = false.
Proof. apply line_lt_asym. Qed.

Lemma less_trans (p q r : Z) : less doc p q = true -> less doc q r = true -> less doc p r = true.
Proof. apply line_lt_trans. Qed.

(** The loop of [quickSort] on [A ++ L ++ p :: G ++ U ++ B]: the pivot [p]
    stands after the lines [L] below it, [G] holds the lines seen that are
    not below it, and [U] is still to be seen. *)
Lemma partition_loop_spec (U : list Z) :
  forall (A L : list Z) (p : Z) (G B : list Z) (i pivot : Z) (perm : list Z),
    perm = A ++ L ++ p :: G ++ U ++ B ->
    pivot = len A + len L ->
    i = pivot + 1 + len G ->
    valid_line doc p -> Forall (valid_line doc) U ->
    Forall (fun x => less doc x p = true) L ->
    Forall (fun x => less doc x p = false) G ->
    exists L' G',
      for_loop (length U) i (partition_step holder) (pivot, perm)
      = Ok (len A + len L', A ++ L' ++ p :: G' ++ B) /\
      L' ++ G' ≡ₚ L ++ G ++ U /\
      Forall (fun x => less doc x p = true) L' /\
      Forall (fun x => less doc x p = false) G'.
Proof.
  induction U as [|x U IH]; intros A L p G B i pivot perm Hperm Hpivot Hi Hp HU HL HG.
  - exists L, G. subst. cbn [length for_loop ret result_monad app].
    rewrite app_nil_r. auto.
  - apply Forall_cons in HU as [Hx HU].
    pose proof (len_nonneg A). pose proof (len_nonneg L). pose proof (len_nonneg G).
    assert (Hix : index perm i = Ok x).
    { apply (index_at perm (A ++ L ++ p :: G) (U ++ B)); [subst; list_eq | subst; len_eq]. }
    assert (Hip : index perm pivot = Ok p).
    { apply (index_at perm (A ++ L) (G ++ x :: U ++ B)); [subst; list_eq | subst; len_eq]. }
    destruct (less doc x p) eqn:Hless.
    + (* [x] goes below the pivot *)
      destruct G as [|y G].
      * assert (Hstep : partition_step holder i (pivot, perm)
                        = Ok (pivot + 1, A ++ (L ++ [x]) ++ p :: [] ++ U ++ B)).
        { unfold partition_step. rewrite Hix, Hip. cbn [bind result_monad].
          rewrite (linesLess_less x p Hx Hp), Hless. cbn [bind result_monad].
          change (len []) with 0 in Hi.
          rewrite (proj2 (Z.eqb_eq i (pivot + 1))) by lia.
          rewrite (store_at perm (A ++ L) (x :: U ++ B) p x pivot)
            by first [subst; list_eq | subst; len_eq].
          cbn [bind result_monad].
          rewrite (store_at _ (A ++ L ++ [x]) (U ++ B) x p i)
            by first [list_eq | subst; len_eq].
          cbn [bind result_monad]. f_equal. f_equal. list_eq. }
        destruct (IH A (L ++ [x]) p [] B (i + 1) (pivot + 1) _ eq_refl)
          as (L' & G' & Hloop & Hpm & HL' & HG');
          [subst; len_eq | subst; len_eq | assumption | assumption
          | apply Forall_app; split; [assumption | repeat constructor; assumption]
          | constructor |].
        exists L', G'. split; [cbn [length]; rewrite for_loop_succ, Hstep, bind_Ok; exact Hloop|].
        split; [|auto].
        rewrite Hpm. solve_Permutation.
      * assert (Hstep : partition_step holder i (pivot, perm)
                        = Ok (pivot + 1, A ++ (L ++ [x]) ++ p :: (G ++ [y]) ++ U ++ B)).
        { unfold partition_step. rewrite Hix, Hip. cbn [bind result_monad].
          rewrite (linesLess_less x p Hx Hp), Hless. cbn [bind result_monad].
          rewrite len_cons in Hi. pose proof (len_nonneg G).
          rewrite (proj2 (Z.eqb_neq i (pivot + 1))) by lia.
          rewrite (index_at perm (A ++ L ++ [p]) (G ++ x :: U ++ B) y (pivot + 1))
            by first [subst; list_eq | subst; len_eq].
          cbn [bind result_monad].
          rewrite (store_at perm (A ++ L) (y :: G ++ x :: U ++ B) p x pivot)
            by first [subst; list_eq | subst; len_eq].
          cbn [bind result_monad].
          rewrite (store_at _ (A ++ L ++ [x]) (G ++ x :: U ++ B) y p (pivot + 1))
            by first [list_eq | subst; len_eq].
          cbn [bind result_monad].
          rewrite (store_at _ (A ++ L ++ [x] ++ p :: G) (U ++ B) x y i)
            by first [list_eq | subst; len_eq].
          cbn [bind result_monad]. f_equal. f_equal. list_eq. }
        apply Forall_cons in HG as [Hy HG].
        destruct (IH A (L ++ [x]) p (G ++ [y]) B (i + 1) (pivot + 1) _ eq_refl)
          as (L' & G' & Hloop & Hpm & HL' & HG');
          [subst; len_eq | subst; len_eq | assumption | assumption
          | apply Forall_app; split; [assumption | repeat constructor; assumption]
          | apply Forall_app; split; [assumption | repeat constructor; assumption] |].
        exists L', G'. split; [cbn [length]; rewrite for_loop_succ, Hstep, bind_Ok; exact Hloop|].
        split; [|auto].
        rewrite Hpm. solve_Permutation.
    + (* [x] stays where it is *)
      assert (Hstep : partition_step holder i (pivot, perm) = Ok (pivot, perm)).
      { unfold partition_step. rewrite Hix, Hip. cbn [bind result_monad].
        rewrite (linesLess_less x p Hx Hp), Hless. reflexivity. }
      destruct (IH A L p (G ++ [x]) B (i + 1) pivot perm)
        as (L' & G' & Hloop & Hpm & HL' & HG');
        [subst; list_eq | assumption | subst; len_eq | assumption | assumption | assumption
        | apply Forall_app; split; [assumption | repeat constructor; assumption] |].
      exists L', G'. split; [cbn [length]; rewrite for_loop_succ, Hstep, bind_Ok; exact Hloop|].
        split; [|auto].
      rewrite Hpm. solve_Permutation.
Qed.

Lemma quickSort_eq (lo hi : Z) (perm : list Z) :
  quickSort holder lo hi perm =
  if hi - lo <=? 1 then Ok perm
  else match partition holder lo hi perm with
       | Ok (pivot, perm1) =>
           perm2 <- quickSort holder lo pivot perm1 ;;
           quickSort holder (pivot + 1) hi perm2
       | Panic msg => Panic msg
       end.
Proof.
  rewrite quickSort_unfold_eq. unfold quickSort_unfold.
  destruct (inspect (hi - lo <=? 1)) as [[] Hle]; cbn [quickSort_unfold_clause_1].
  - rewrite Hle. reflexivity.
  - transitivity (match partition holder lo hi perm with
                  | Ok (pivot, perm1) =>
                      perm2 <- quickSort holder lo pivot perm1 ;;
                      quickSort holder (pivot + 1) hi perm2
                  | Panic msg => Panic msg
                  end); [|rewrite Hle; reflexivity].
    destruct (inspect (partition holder lo hi perm)) as [[[pivot perm1]|msg] Hp];
      cbn [quickSort_unfold_clause_1_clause_2]; rewrite Hp; reflexivity.
Qed.

Lemma len_Permutation (l1 l2 : list Z) : l1 ≡ₚ l2 -> len l1 = len l2.
Proof. intros Hp. unfold len. rewrite (Permutation_length Hp). reflexivity. Qed.

Lemma quickSort_spec (n : nat) :
  forall (A S B : list Z),
    (length S <= n)%nat -> Forall (valid_line doc) S ->
    exists S',
      quickSort holder (len A) (len A + len S) (A ++ S ++ B) = Ok (A ++ S' ++ B) /\
      S' ≡ₚ S /\ sorted_lines doc S'.
Proof.
  induction n as [|n IH]; intros A S B Hlen HS; rewrite quickSort_eq.
  - destruct S; [|simpl in Hlen; lia].
    rewrite (proj2 (Z.leb_le _ _)) by len_eq. exists []. repeat split; constructor.
  - destruct S as [|p [|u U]].
    + rewrite (proj2 (Z.leb_le _ _)) by len_eq. exists []. repeat split; constructor.
    + rewrite (proj2 (Z.leb_le _ _)) by len_eq. exists [p]. repeat split; repeat constructor.
    + pose proof (len_nonneg U). rewrite !len_cons.
      rewrite (proj2 (Z.leb_gt _ _)) by lia.
      apply Forall_cons in HS as [Hp HU].
      destruct (partition_loop_spec (u :: U) A [] p [] B (len A + 1) (len A)
                  (A ++ (p :: u :: U) ++ B))
        as (L' & G' & Hloop & Hpm & HL' & HG');
        [list_eq | len_eq | len_eq | assumption | assumption | constructor | constructor |].
      cbn [app] in Hpm.
      unfold partition, for_range.
      replace (Z.to_nat (len A + (len U + 1 + 1) - (len A + 1))) with (length (u :: U))
        by (cbn [length]; unfold len; lia).
      rewrite Hloop.
      assert (Hlens : len L' + len G' = len U + 1).
      { rewrite <- len_app, (len_Permutation _ _ Hpm), len_cons. reflexivity. }
      pose proof (len_nonneg L'). pose proof (len_nonneg G').
      assert (HUv : Forall (valid_line doc) (L' ++ G')) by (rewrite Hpm; exact HU).
      apply Forall_app in HUv as [HL'v HG'v].
      destruct (IH A L' (p :: G' ++ B)) as (L'' & HqL & HpL & HsL);
        [simpl in Hlen; unfold len in Hlens; lia | assumption |].
      rewrite HqL, bind_Ok.
      destruct (IH (A ++ L'' ++ [p]) G' B) as (G'' & HqG & HpG & HsG);
        [simpl in Hlen; unfold len in Hlens; lia | assumption |].
      pose proof (len_Permutation _ _ HpL) as HlenL.
      replace (len A + len L' + 1) with (len (A ++ L'' ++ [p])) by len_eq.
      replace (len A + (len U + 1 + 1)) with (len (A ++ L'' ++ [p]) + len G') by len_eq.
      replace (A ++ L'' ++ p :: G' ++ B) with ((A ++ L'' ++ [p]) ++ G' ++ B) by list_eq.
      rewrite HqG.
      exists (L'' ++ p :: G''). split; [f_equal; list_eq|]. split.
      * rewrite HpL, HpG, <- Hpm. solve_Permutation.
      * assert (HL'' : Forall (fun x => less doc x p = true) L'') by (rewrite HpL; exact HL').
        assert (HG'' : Forall (fun x => less doc x p = false) G'') by (rewrite HpG; exact HG').
        rewrite Forall_forall in HL'', HG''.
        apply StronglySorted_app. split; [|split].
        -- intros x1 x2 Hx1 Hx2. apply HL'' in Hx1.
           apply elem_of_cons in Hx2 as [-> | Hx2].
           ++ apply less_asym, Hx1.
           ++ apply HG'' in Hx2. destruct (less doc x2 x1) eqn:H21; [|reflexivity].
              rewrite <- Hx2. symmetry. apply (less_trans x2 x1 p); assumption.
        -- exact HsL.
        -- apply StronglySorted_cons. split; [|exact HsG].
           rewrite Forall_forall. exact HG''.
Qed.

Lemma fill_loop (k : nat) (pre : list Z) :
  for_loop k (len pre) (fun i perm => store perm i (i + 1)) (pre ++ replicate k 0)
  = Ok (pre ++ seqZ (len pre + 1) (Z.of_nat k)).
Proof.
  revert pre. induction k as [|k IH]; intros pre.
  - cbn [for_loop replicate ret result_monad]. rewrite seqZ_nil by lia. reflexivity.
  - rewrite for_loop_succ. cbn [replicate].
    rewrite (store_at _ pre (replicate k 0) 0 (len pre + 1) (len pre)) by reflexivity.
    rewrite bind_Ok. specialize (IH (pre ++ [len pre + 1])).
    rewrite len_snoc, <- app_assoc in IH. cbn [app] in IH. rewrite IH.
    rewrite (seqZ_cons (len pre + 1) (Z.of_nat (S k))) by lia.
    replace (Z.succ (len pre + 1)) with (len pre + 1 + 1) by lia.
    replace (Z.pred (Z.of_nat (S k))) with (Z.of_nat k) by lia.
    rewrite <- app_assoc. reflexivity.
Qed.

Lemma newAlphabetizer_spec :
  exists pm,
    newAlphabetizer holder = Ok {| alpha_storage := holder; perm := pm |} /\
    pm ≡ₚ seqZ 1 (len doc) /\ sorted_lines doc pm.
Proof.
  unfold newAlphabetizer. rewrite (proj1 holder_presents), bind_Ok.
  unfold make. pose proof (len_nonneg doc).
  rewrite (proj2 (Z.ltb_ge (len doc) 0)) by lia. rewrite bind_Ok.
  unfold for_range.
  assert (Hrep : len (replicate (Z.to_nat (len doc)) 0) = len doc).
  { unfold len. rewrite length_replicate. lia. }
  rewrite Hrep, Z.sub_0_r.
  pose proof (fill_loop (Z.to_nat (len doc)) []) as Hfill.
  cbn [app] in Hfill. change (len []) with 0 in Hfill. rewrite Hfill, bind_Ok.
  rewrite Z2Nat.id by lia. change (0 + 1) with 1.
  destruct (quickSort_spec (length (seqZ 1 (len doc))) [] (seqZ 1 (len doc)) [])
    as (pm & Hq & Hpm & Hs); [lia | apply Forall_seqZ; unfold valid_line; lia |].
  rewrite app_nil_r in Hq. cbn [app] in Hq. change (len []) with 0 in Hq.
  rewrite Z.add_0_l, app_nil_r in Hq. rewrite Hq, bind_Ok.
  exists pm. auto.
Qed.

(** The view over [holder] that reads its lines in the order [pm]. *)
Lemma alphabetizer_presents (pm : list Z) :
  Forall (valid_line doc) pm -> len pm = len doc ->
  presents {| alpha_storage := holder; perm := pm |} ((line_at doc) <$> pm).
Proof.
  intros Hpm Hlen. split.
  - cbn [lines alphabetizer_holder]. unfold alphabetizer_lines. cbn [alpha_storage].
    rewrite (proj1 holder_presents), <- Hlen. unfold len. rewrite length_fmap. reflexivity.
  - intros i l Hl. apply list_lookup_fmap_Some_1 in Hl as (p & -> & Hp).
    assert (Hv : valid_line doc p) by (rewrite Forall_forall in Hpm; eapply Hpm, list_elem_of_lookup_2, Hp).
    destruct (line_at_is p Hv) as [Hwords Hline].
    assert (Hidx : index pm (Z.of_nat i + 1 - 1) = Ok p) by (apply index_succ_pred, Hp).
    split.
    + cbn [words alphabetizer_holder]. unfold alphabetizer_words. cbn [perm alpha_storage].
      rewrite Hidx, bind_Ok. exact Hwords.
    + intros j w Hw. destruct (Hline j w Hw) as [Hchars Hword]. split.
      * cbn [chars alphabetizer_holder]. unfold alphabetizer_chars. cbn [perm alpha_storage].
        rewrite Hidx, bind_Ok. exact Hchars.
      * intros k b Hb. cbn [char alphabetizer_holder]. unfold alphabetizer_char.
        cbn [perm alpha_storage]. rewrite Hidx, bind_Ok. apply Hword, Hb.
Qed.
End SortFacts.

Lemma StronglySorted_lookup {A} (R : A -> A -> Prop) (l : list A) (a b : nat) (x y : A) :
  StronglySorted R l -> l !! a = Some x -> l !! b = Some y -> (a < b)%nat -> R x y.
Proof.
  intros Hs. revert a b. induction Hs as [|z l Hs IH Hz]; intros a b Ha Hb Hab.
  - discriminate Ha.
  - destruct b as [|b]; [lia|]. destruct a as [|a].
    + injection Ha as <-. rewrite Forall_forall in Hz.
      apply Hz. apply list_elem_of_lookup_2 with b. exact Hb.
    + apply (IH a b); [exact Ha | exact Hb | lia].
Qed.

Lemma newAlphabetizer_perm_valid (doc : document) (pm : list Z) :
  pm ≡ₚ seqZ 1 (len doc) -> Forall (valid_line doc) pm /\ len pm = len doc.
Proof.
  intros Hpm. split.
  - rewrite Hpm. apply Forall_seqZ. unfold valid_line. lia.
  - rewrite (len_Permutation _ _ Hpm). unfold len. rewrite length_seqZ. lia.
Qed.

(** C3: the view built by [newAlphabetizer] over a text that keeps the read
    contract is sorted: no line of the view is below the line before it,
    nor below any earlier line. *)
Theorem newAlphabetizer_sorted {T : Type} `{lineHolder T} (holder : T) (doc : document) :
  presents holder doc ->
  exists alpha,
    newAlphabetizer holder = Ok alpha /\
    lines alpha = Ok (len doc) /\
    (forall i, 1 <= i < len doc -> linesLess alpha (i + 1) i = Ok false) /\
    (forall i j, 1 <= i -> i < j -> j <= len doc -> linesLess alpha j i = Ok false).
Proof.
  intros Hdoc. destruct (newAlphabetizer_spec holder doc Hdoc) as (pm & Hnew & Hpm & Hs).
  destruct (newAlphabetizer_perm_valid doc pm Hpm) as [Hvalid Hlen].
  pose proof (alphabetizer_presents holder doc Hdoc pm Hvalid Hlen) as Halpha.
  exists {| alpha_storage := holder; perm := pm |}. split; [exact Hnew|].
  assert (Hpairs : forall i j, 1 <= i -> i < j -> j <= len doc ->
            linesLess {| alpha_storage := holder; perm := pm |} j i = Ok false).
  { intros i j Hi Hij Hj.
    assert (Hlenf : len (line_at doc <$> pm) = len doc)
      by (unfold len; rewrite length_fmap; exact Hlen).
    destruct (presents_line _ _ i Halpha) as (li & Hli & Hisi); [lia|].
    destruct (presents_line _ _ j Halpha) as (lj & Hlj & Hisj); [lia|].
    rewrite (linesLess_lex _ j i lj li Hisj Hisi). f_equal.
    apply list_lookup_fmap_Some_1 in Hli as (pi & -> & Hpi).
    apply list_lookup_fmap_Some_1 in Hlj as (pj & -> & Hpj).
    apply (StronglySorted_lookup _ pm (Z.to_nat (i - 1)) (Z.to_nat (j - 1)) pi pj Hs Hpi Hpj).
    lia. }
  split; [|split].
  - cbn [lines alphabetizer_holder]. unfold alphabetizer_lines. apply (proj1 Hdoc).
  - intros i Hi. apply Hpairs; lia.
  - exact Hpairs.
Qed.

Lemma newAlphabetizer_sorted_witness :
  exists alpha,
    newAlphabetizer sample_storage = Ok alpha /\
    lines alpha = Ok (len (array sample_storage)) /\
    (forall i, 1 <= i < len (array sample_storage) -> linesLess alpha (i + 1) i = Ok false) /\
    (forall i j, 1 <= i -> i < j -> j <= len (array sample_storage) ->
       linesLess alpha j i = Ok false).
Proof.
  apply (newAlphabetizer_sorted sample_storage (array sample_storage)).
  apply lineStorage_presents.
Defined.

(** C7: the permutation of the view built by [newAlphabetizer] has the
    length of the text and holds every line number from 1 to that length
    exactly once; this includes the text of no lines. *)
Theorem newAlphabetizer_permutation {T : Type} `{lineHolder T} (holder : T) (doc : document) :
  presents holder doc ->
  exists alpha,
    newAlphabetizer holder = Ok alpha /\
    len (perm alpha) = len doc /\
    perm alpha ≡ₚ seqZ 1 (len doc) /\
    NoDup (perm alpha) /\
    (forall k, k ∈ perm alpha <-> 1 <= k <= len doc).
Proof.
  intros Hdoc. destruct (newAlphabetizer_spec holder doc Hdoc) as (pm & Hnew & Hpm & Hs).
  destruct (newAlphabetizer_perm_valid doc pm Hpm) as [Hvalid Hlen].
  exists {| alpha_storage := holder; perm := pm |}. cbn [perm].
  split; [exact Hnew|]. split; [exact Hlen|]. split; [exact Hpm|]. split.
  - rewrite Hpm. apply NoDup_seqZ.
  - intros k. rewrite Hpm, elem_of_seqZ. lia.
Qed.

Lemma newAlphabetizer_permutation_witness :
  (exists alpha,
     newAlphabetizer sample_storage = Ok alpha /\
     len (perm alpha) = len (array sample_storage) /\
     perm alpha ≡ₚ seqZ 1 (len (array sample_storage)) /\
     NoDup (perm alpha) /\
     (forall k, k ∈ perm alpha <-> 1 <= k <= len (array sample_storage))) /\
  (exists alpha,
     newAlphabetizer {| array := [] |} = Ok alpha /\
     len (perm alpha) = 0 /\
     perm alpha ≡ₚ seqZ 1 0 /\
     NoDup (perm alpha) /\
     (forall k, k ∈ perm alpha <-> 1 <= k <= 0)).
Proof.
  split.
  - apply (newAlphabetizer_permutation sample_storage (array sample_storage)).
    apply lineStorage_presents.
  - apply (newAlphabetizer_permutation {| array := [] |} []).
    apply lineStorage_presents.
Defined.

(** ** The shifter as a text *)

(** On a line of [n] words, the words that a rotation reads are words of the
    line, each read once. *)
Lemma shifted_word_range (n k word : Z) :
  1 <= k <= n -> 1 <= word <= n -> 1 <= shifted_word n k word <= n.
Proof. intros Hk Hw. unfold shifted_word. destruct (Z.ltb_spec n (word + k)); lia. Qed.

Lemma shifted_word_inj (n k word1 word2 : Z) :
  1 <= k <= n -> 1 <= word1 <= n -> 1 <= word2 <= n ->
  shifted_word n k word1 = shifted_word n k word2 -> word1 = word2.
Proof.
  intros Hk H1 H2. unfold shifted_word.
  destruct (Z.ltb_spec n (word1 + k)); destruct (Z.ltb_spec n (word2 + k)); lia.
Qed.

Lemma rotate_length (l : list (list byte)) (k : nat) :
  (k <= length l)%nat -> length (rotate l k) = length l.
Proof. intros Hk. unfold rotate. rewrite length_app, length_drop, length_take. lia. Qed.

Lemma rotate_lookup (l : list (list byte)) (k m : nat) (w : list byte) :
  (1 <= k <= length l)%nat ->
  rotate l k !! m = Some w ->
  l !! Z.to_nat (shifted_word (len l) (Z.of_nat k) (Z.of_nat m + 1) - 1) = Some w.
Proof.
  intros Hk Hm. unfold rotate in Hm. unfold shifted_word, len.
  apply lookup_app_Some in Hm as [Hm | [Hge Hm]].
  - rewrite lookup_drop in Hm. pose proof (lookup_lt_Some _ _ _ Hm).
    destruct (Z.ltb_spec (Z.of_nat (length l)) (Z.of_nat m + 1 + Z.of_nat k)); [lia|].
    replace (Z.to_nat (Z.of_nat m + 1 + Z.of_nat k - 1)) with (k + m)%nat by lia.
    exact Hm.
  - rewrite length_drop in Hge, Hm. pose proof (lookup_lt_Some _ _ _ Hm) as Hlt.
    rewrite length_take in Hlt. rewrite lookup_take_lt in Hm by lia.
    destruct (Z.ltb_spec (Z.of_nat (length l)) (Z.of_nat m + 1 + Z.of_nat k)); [|lia].
    replace (Z.to_nat (Z.of_nat m + 1 + Z.of_nat k - Z.of_nat (length l) - 1))
      with (m - (length l - k))%nat by lia.
    exact Hm.
Qed.

(** The pairs of the shifter and its text run in step. *)
Lemma rotations_shifts (doc : document) :
  forall (start : Z) (j : nat) (r : list (list byte)),
    rotations doc !! j = Some r ->
    exists (i k : nat) (l : list (list byte)),
      shifts_from start doc !! j = Some (mkShift (start + Z.of_nat i) (Z.of_nat k)) /\
      doc !! i = Some l /\ (1 <= k <= length l)%nat /\ r = rotate l k.
Proof.
  induction doc as [|l doc IH]; intros start j r Hr; [discriminate Hr|].
  unfold rotations in Hr. cbn [map concat] in Hr. fold (rotations doc) in Hr.
  cbn [shifts_from].
  assert (Hlen : length (map (mkShift start) (seqZ 1 (len l))) = length l).
  { rewrite length_map, length_seqZ. unfold len. lia. }
  apply lookup_app_Some in Hr as [Hr | [Hge Hr]].
  - unfold rotations_of_line in Hr.
    pose proof (lookup_lt_Some _ _ _ Hr) as Hj. rewrite length_map, length_seq in Hj.
    exists O, (S j), l. split; [|split; [reflexivity | split; [lia|]]].
    + rewrite lookup_app_l by lia. rewrite Z.add_0_r.
      change (map (mkShift start) (seqZ 1 (len l))) with (mkShift start <$> seqZ 1 (len l)).
      rewrite list_lookup_fmap, lookup_seqZ_lt by (unfold len; lia).
      cbn [fmap option_fmap option_map]. f_equal. f_equal. lia.
    + change (map (rotate l) (seq 1 (length l))) with (rotate l <$> seq 1 (length l)) in Hr.
      rewrite list_lookup_fmap, lookup_seq_lt in Hr by lia.
      injection Hr as <-. reflexivity.
  - unfold rotations_of_line in Hge, Hr. rewrite length_map, length_seq in Hge, Hr.
    destruct (IH (start + 1) (j - length l)%nat r Hr) as (i & k & l' & Hsh & Hl' & Hk & ->).
    exists (S i), k, l'. split; [|split; [exact Hl' | split; [exact Hk | reflexivity]]].
    rewrite lookup_app_r by lia. rewrite Hlen.
    replace (start + Z.of_nat (S i)) with (start + 1 + Z.of_nat i) by lia. exact Hsh.
Qed.

Lemma len_rotations (doc : document) : len (rotations doc) = total_words doc.
Proof.
  induction doc as [|l doc IH]; [reflexivity|].
  unfold rotations. cbn [map concat total_words fold_right]. fold (rotations doc).
  rewrite len_app, IH. f_equal. unfold len, rotations_of_line.
  rewrite length_map, length_seq. reflexivity.
Qed.

(** The shifter over a text that reads as [doc] reads as the rotations of
    [doc]: it keeps the read contract that [newAlphabetizer] and [output]
    rely on. *)
Lemma circularShifter_presents {T : Type} `{lineHolder T} (holder : T) (doc : document) :
  presents holder doc ->
  presents {| shifter_storage := holder; shifts := shifts_from 1 doc |} (rotations doc).
Proof.
  intros Hdoc. split.
  - cbn [lines circularShifter_holder]. unfold circularShifter_lines. cbn [shifts].
    rewrite len_shifts_from, len_rotations. reflexivity.
  - intros j r Hr.
    destruct (rotations_shifts doc 1 j r Hr) as (i & k & l & Hsh & Hl & Hk & ->).
    destruct (proj2 Hdoc i l Hl) as [Hwords Hline].
    replace (1 + Z.of_nat i) with (Z.of_nat i + 1) in Hsh by lia.
    assert (Hidx : index (shifts_from 1 doc) (Z.of_nat j + 1 - 1)
                   = Ok (mkShift (Z.of_nat i + 1) (Z.of_nat k)))
      by (apply index_succ_pred, Hsh).
    split.
    + cbn [words circularShifter_holder]. unfold circularShifter_words.
      cbn [shifts shifter_storage]. rewrite Hidx, bind_Ok. cbn [shift_line mkShift].
      rewrite Hwords. unfold len. rewrite rotate_length by lia. reflexivity.
    + intros m w Hw. apply (rotate_lookup l k m w Hk) in Hw.
      pose proof (lookup_lt_Some _ _ _ Hw) as Hlt.
      assert (Hrange : 1 <= shifted_word (len l) (Z.of_nat k) (Z.of_nat m + 1)).
      { unfold shifted_word, len.
        destruct (Z.ltb_spec (Z.of_nat (length l)) (Z.of_nat m + 1 + Z.of_nat k)); lia. }
      destruct (Hline _ w Hw) as [Hchars Hchar].
      rewrite Z2Nat.id in Hchars, Hchar by lia.
      replace (shifted_word (len l) (Z.of_nat k) (Z.of_nat m + 1) - 1 + 1)
        with (shifted_word (len l) (Z.of_nat k) (Z.of_nat m + 1)) in Hchars, Hchar by lia.
      split.
      * cbn [chars circularShifter_holder]. unfold circularShifter_chars.
        cbn [shifts shifter_storage]. rewrite Hidx, bind_Ok. cbn [shift_line startWord mkShift].
        rewrite Hwords, bind_Ok. exact Hchars.
      * intros c b Hb.
        rewrite (circularShifter_char_shifted
                   {| shifter_storage := holder; shifts := shifts_from 1 doc |}
                   _ _ _ _ _ _ Hidx Hwords).
        apply Hchar, Hb.
Qed.

(** ** The whole run *)

(** On a well-formed document [main] writes the rotations of its lines,
    sorted, and ends normally. *)
Lemma main_well_formed (doc : document) (bytes : list byte) :
  well_formed doc ->
  bytes = render doc \/ bytes ++ [newline] = render doc ->
  exists pm,
    main (Opened (stream bytes)) = (render (line_at (rotations doc) <$> pm), Exit0) /\
    pm ≡ₚ seqZ 1 (total_words doc) /\
    sorted_lines (rotations doc) pm.
Proof.
  intros Hdoc Hbytes. unfold main.
  rewrite (input_well_formed doc bytes Hdoc Hbytes).
  pose proof (lineStorage_presents {| array := doc |}) as Hst. cbn [array] in Hst.
  rewrite (newCircularShifter_presents _ doc Hst).
  pose proof (circularShifter_presents _ doc Hst) as Hsh.
  destruct (newAlphabetizer_spec _ (rotations doc) Hsh) as (pm & Hnew & Hpm & Hs).
  rewrite Hnew.
  destruct (newAlphabetizer_perm_valid (rotations doc) pm Hpm) as [Hvalid Hlen].
  pose proof (alphabetizer_presents _ (rotations doc) Hsh pm Hvalid Hlen) as Halpha.
  rewrite (output_presents _ _ [] Halpha). cbn [app].
  exists pm. rewrite len_rotations in Hpm. auto.
Qed.

(** The two lines [the cat sat] and [a cat ran]. *)
Example main_two_lines :
  main (Opened (stream (bytes_of_string "the cat sat
a cat ran")))
  = (bytes_of_string "a cat ran
cat ran a
cat sat the
ran a cat
sat the cat
the cat sat
", Exit0).
Proof. vm_compute. reflexivity. Qed.

(** * Further properties *)

(** ** Reading the line storage *)

Lemma index_cases {A} (l : list A) (i : Z) :
  (0 <= i < len l /\ exists x, index l i = Ok x /\ l !! Z.to_nat i = Some x) \/
  (~ 0 <= i < len l /\ index l i = Panic "index out of range"%string).
Proof.
  destruct (Z_lt_dec i 0) as [Hneg | Hpos].
  - right. split; [lia | apply index_out_of_range; lia].
  - destruct (Z_lt_dec i (len l)) as [Hlt | Hge].
    + left. split; [lia|]. destruct (index_in_range l i) as [x Hx]; [lia|].
      exists x. split; [exact Hx | apply index_Ok, Hx].
    + right. split; [lia | apply index_out_of_range; lia].
Qed.

(** X1: a read of the line storage succeeds exactly when line, word and
    character lie within the counts that [lines], [words] and [chars]
    report; any other read is a run-time index panic. *)
Theorem lineStorage_char_in_bounds (s : lineStorage) (line word c : Z) :
  ((exists b, char s line word c = Ok b) <-> in_bounds s line word c) /\
  (~ in_bounds s line word c -> char s line word c = Panic "index out of range"%string).
Proof.
  assert (Hdec : in_bounds s line word c \/
                 (~ in_bounds s line word c /\
                  char s line word c = Panic "index out of range"%string)).
  { unfold in_bounds. cbn [char lines words chars lineStorage_holder].
    unfold lineStorage_char, lineStorage_lines, lineStorage_words, lineStorage_chars.
    destruct (index_cases (array s) (line - 1)) as [(Hl & l & Hil & _) | (Hl & Hil)];
      rewrite Hil; cbn [bind result_monad].
    - destruct (index_cases l (word - 1)) as [(Hw & w & Hiw & _) | (Hw & Hiw)];
        rewrite Hiw; cbn [bind result_monad].
      + destruct (index_cases w (c - 1)) as [(Hc & b & Hic & _) | (Hc & Hic)].
        * left. exists (len (array s)), (len l), (len w). repeat split; lia.
        * right. split; [|exact Hic].
          intros (n & m & k & [= <-] & ? & [= <-] & ? & [= <-] & ?). lia.
      + right. split; [|reflexivity].
        intros (n & m & k & [= <-] & ? & [= <-] & ? & ? & ?). lia.
    - right. split; [|reflexivity].
      intros (n & m & k & [= <-] & ? & ? & ? & ? & ?). lia. }
  split; [split|].
  - intros [b Hb]. destruct Hdec as [Hin | [_ Hp]]; [exact Hin|].
    rewrite Hp in Hb. discriminate Hb.
  - intros (n & m & k & Hn & Hline & Hm & Hword & Hk & Hc).
    cbn [char lines words chars lineStorage_holder] in *.
    unfold lineStorage_char, lineStorage_lines, lineStorage_words, lineStorage_chars in *.
    injection Hn as <-.
    destruct (index_cases (array s) (line - 1)) as [(_ & l & Hil & _) | (Hl & _)]; [|lia].
    rewrite Hil in *. cbn [bind result_monad] in *. injection Hm as <-.
    destruct (index_cases l (word - 1)) as [(_ & w & Hiw & _) | (Hw & _)]; [|lia].
    rewrite Hiw in *. cbn [bind result_monad] in *. injection Hk as <-.
    apply index_in_range. lia.
  - intros Hno. destruct Hdec as [Hin | [_ Hp]]; [contradiction | exact Hp].
Qed.

Lemma lineStorage_char_in_bounds_witness :
  in_bounds sample_storage 3 2 1 /\ (exists b, char sample_storage 3 2 1 = Ok b) /\
  char sample_storage 3 4 1 = Panic "index out of range"%string.
Proof.
  assert (Hin : in_bounds sample_storage 3 2 1).
  { exists 3, 3, 1. repeat split; try reflexivity; lia. }
  split; [exact Hin|]. split.
  - apply (proj1 (lineStorage_char_in_bounds sample_storage 3 2 1)), Hin.
  - apply (proj2 (lineStorage_char_in_bounds sample_storage 3 4 1)).
    intros (n & m & k & _ & _ & Hm & Hw & _). vm_compute in Hm. injection Hm as <-. lia.
Defined.

(** ** What an append changes *)

(** The array after an append that succeeded. *)
Lemma setWord_Ok_shape (line word c : Z) (v : byte) (s s' : lineStorage) :
  setWord line word c v s = (s', Ok tt) ->
  (exists arr l w, array s = arr ++ [l ++ [w]] /\ array s' = arr ++ [l ++ [w ++ [v]]]) \/
  (exists arr l, array s = arr ++ [l] /\ array s' = arr ++ [l ++ [[v]]]) \/
  array s' = array s ++ [[[v]]].
Proof.
  intros Hs'. assert (Happ : appendable s line word c).
  { apply (setWord_succeeds_iff line word c v s). exists s'. exact Hs'. }
  destruct s as [a]. unfold appendable in Happ. cbn [array] in *.
  destruct Happ as [(arr & l & w & -> & -> & -> & ->)
                   | [(arr & l & -> & -> & -> & ->) | (-> & -> & ->)]].
  - rewrite setWord_next_char in Hs'. injection Hs' as <-. left. exists arr, l, w. auto.
  - rewrite setWord_new_word in Hs'. injection Hs' as <-. right. left. exists arr, l. auto.
  - rewrite setWord_new_line in Hs'. injection Hs' as <-. right. right. reflexivity.
Qed.

Lemma lookup_snoc_change {A} (a : list A) (x x' y : A) (i : nat) :
  (a ++ [x]) !! i = Some y ->
  ((a ++ [x']) !! i = Some y) \/ (i = length a /\ y = x /\ (a ++ [x']) !! i = Some x').
Proof.
  intros Hi. apply lookup_app_Some in Hi as [Hi | [Hge Hi]].
  - left. apply lookup_app_l_Some, Hi.
  - right. destruct (i - length a)%nat as [|k] eqn:Hk; [|destruct k; discriminate Hi].
    injection Hi as <-. assert (i = length a) as -> by lia.
    repeat split. apply list_lookup_middle. reflexivity.
Qed.

Lemma lineStorage_char_Ok (s : lineStorage) (line word c : Z) (b : byte) :
  char s line word c = Ok b <->
  exists l w,
    1 <= line /\ 1 <= word /\ 1 <= c /\
    array s !! Z.to_nat (line - 1) = Some l /\
    l !! Z.to_nat (word - 1) = Some w /\
    w !! Z.to_nat (c - 1) = Some b.
Proof.
  cbn [char lineStorage_holder]. unfold lineStorage_char. split.
  - destruct (index (array s) (line - 1)) as [l|] eqn:Hl; [|discriminate].
    cbn [bind result_monad].
    destruct (index l (word - 1)) as [w|] eqn:Hw; [|discriminate].
    cbn [bind result_monad]. intros Hb.
    apply index_Ok in Hl as [? Hl], Hw as [? Hw], Hb as [? Hb].
    exists l, w. repeat split; (lia || assumption).
  - intros (l & w & ? & ? & ? & Hl & Hw & Hb).
    rewrite (proj2 (index_Ok (array s) (line - 1) l)) by (split; [lia | exact Hl]).
    cbn [bind result_monad].
    rewrite (proj2 (index_Ok l (word - 1) w)) by (split; [lia | exact Hw]).
    cbn [bind result_monad]. apply index_Ok. split; [lia | exact Hb].
Qed.

(** X2: an append that succeeds adds its byte at the end of the stored bytes
    and nothing else: every character that could be read before reads the
    same afterwards, and the line count grows by at most one. *)
Theorem setWord_appends_only (line word c : Z) (v : byte) (s s' : lineStorage) :
  setWord line word c v s = (s', Ok tt) ->
  stored_bytes (array s') = stored_bytes (array s) ++ [v] /\
  (forall l w k b, char s l w k = Ok b -> char s' l w k = Ok b) /\
  len (array s) <= len (array s') <= len (array s) + 1.
Proof.
  intros Hs'. unfold stored_bytes.
  destruct (setWord_Ok_shape _ _ _ _ _ _ Hs')
    as [(arr & l0 & w0 & Hs & Hs1) | [(arr & l0 & Hs & Hs1) | Hs1]];
    rewrite Hs1; try rewrite Hs.
  - split; [|split].
    + rewrite !concat_app. cbn [concat]. rewrite !app_nil_r, !concat_app. cbn [concat].
      rewrite !app_nil_r, <- !app_assoc. reflexivity.
    + intros l w k b Hb. apply lineStorage_char_Ok in Hb as (ln & wd & ? & ? & ? & Hl & Hw & Hk).
      apply lineStorage_char_Ok. rewrite Hs in Hl. rewrite Hs1.
      destruct (lookup_snoc_change arr _ (l0 ++ [w0 ++ [v]]) _ _ Hl) as [Hl' | (_ & -> & Hl')].
      * exists ln, wd. auto 10.
      * destruct (lookup_snoc_change l0 _ (w0 ++ [v]) _ _ Hw) as [Hw' | (_ & -> & Hw')].
        -- exists (l0 ++ [w0 ++ [v]]), wd. auto 10.
        -- exists (l0 ++ [w0 ++ [v]]), (w0 ++ [v]).
           repeat split; try assumption. apply lookup_app_l_Some, Hk.
    + len_simpl. lia.
  - split; [|split].
    + rewrite !concat_app. cbn [concat]. rewrite !app_nil_r, !concat_app. cbn [concat].
      rewrite <- !app_assoc. reflexivity.
    + intros l w k b Hb. apply lineStorage_char_Ok in Hb as (ln & wd & ? & ? & ? & Hl & Hw & Hk).
      apply lineStorage_char_Ok. rewrite Hs in Hl. rewrite Hs1.
      destruct (lookup_snoc_change arr _ (l0 ++ [[v]]) _ _ Hl) as [Hl' | (_ & -> & Hl')].
      * exists ln, wd. auto 10.
      * exists (l0 ++ [[v]]), wd. repeat split; try assumption.
        apply lookup_app_l_Some, Hw.
    + len_simpl. lia.
  - split; [|split].
    + rewrite !concat_app. cbn [concat]. rewrite !app_nil_r. reflexivity.
    + intros l w k b Hb. apply lineStorage_char_Ok in Hb as (ln & wd & ? & ? & ? & Hl & Hw & Hk).
      apply lineStorage_char_Ok. rewrite Hs1. exists ln, wd. repeat split; try assumption.
      apply lookup_app_l_Some, Hl.
    + len_simpl. lia.
Qed.

Lemma setWord_appends_only_witness :
  stored_bytes [[[97]; [98; 99]]] = stored_bytes [[[97]; [98]]] ++ [99] /\
  (forall l w k b,
     char {| array := [[[97]; [98]]] |} l w k = Ok b ->
     char {| array := [[[97]; [98; 99]]] |} l w k = Ok b) /\
  len [[[97]; [98]]] <= len [[[97]; [98; 99]]] <= len [[[97]; [98]]] + 1.
Proof.
  apply (setWord_appends_only 1 2 2 99 {| array := [[[97]; [98]]] |}
           {| array := [[[97]; [98; 99]]] |}).
  reflexivity.
Defined.

(** X3: an append that succeeds keeps the storage free of empty lines and
    empty words. *)
Theorem setWord_no_holes (line word c : Z) (v : byte) (s s' : lineStorage) :
  no_holes (array s) ->
  setWord line word c v s = (s', Ok tt) ->
  no_holes (array s').
Proof.
  unfold no_holes. intros Hs Hs'.
  destruct (setWord_Ok_shape _ _ _ _ _ _ Hs')
    as [(arr & l0 & w0 & Ha & ->) | [(arr & l0 & Ha & ->) | ->]].
  - rewrite Ha in Hs. apply Forall_app in Hs as [Harr Hl].
    apply Forall_cons in Hl as [[_ Hl] _]. apply Forall_app in Hl as [Hl0 _].
    apply Forall_app. split; [exact Harr|]. apply Forall_cons. split; [|constructor].
    split; [intros Hnil; apply app_eq_nil in Hnil as [_ Hnil]; discriminate Hnil|].
    apply Forall_app. split; [exact Hl0|]. apply Forall_cons. split; [|constructor].
    intros Hnil. apply app_eq_nil in Hnil as [_ Hnil]. discriminate Hnil.
  - rewrite Ha in Hs. apply Forall_app in Hs as [Harr Hl].
    apply Forall_cons in Hl as [[_ Hl] _].
    apply Forall_app. split; [exact Harr|]. apply Forall_cons. split; [|constructor].
    split; [intros Hnil; apply app_eq_nil in Hnil as [_ Hnil]; discriminate Hnil|].
    apply Forall_app. split; [exact Hl|]. apply Forall_cons. split; [discriminate | constructor].
  - apply Forall_app. split; [exact Hs|]. apply Forall_cons. split; [|constructor].
    split; [discriminate|]. apply Forall_cons. split; [discriminate | constructor].
Qed.

Lemma setWord_no_holes_witness : no_holes [[[97]; [98]]; [[99]]].
Proof.
  apply (setWord_no_holes 2 1 1 99 {| array := [[[97]; [98]]] |}
           {| array := [[[97]; [98]]; [[99]]] |}); [|reflexivity].
  unfold no_holes. cbn [array].
  repeat first [apply Forall_cons; split | apply Forall_nil_2 | split | discriminate].
Defined.

(** X4: when one of the three guards of [setWord] refuses a triple, nothing
    has been stored yet: the storage is as it was. *)
Theorem setWord_guard_keeps_storage (line word c : Z) (v : byte) (s s' : lineStorage)
    (msg : string) :
  setWord line word c v s = (s', Panic msg) ->
  msg = ERLSBL \/ msg = ERLSBW \/ msg = ERLSBC ->
  s' = s.
Proof.
  intros Hs' Hmsg.
  destruct (setWord_cases line word c v s)
    as [[_ [s'' Hm]] | [[_ [msg' Hm]] | (_ & _ & _ & _ & Hm)]];
    rewrite Hm in Hs'.
  - discriminate Hs'.
  - injection Hs' as <- _. reflexivity.
  - injection Hs' as _ <-. destruct Hmsg as [H | [H | H]]; discriminate H.
Qed.

Lemma setWord_guard_keeps_storage_witness : {| array := [[[97]]] |} = {| array := [[[97]]] |}.
Proof.
  apply (setWord_guard_keeps_storage 1 3 1 98 {| array := [[[97]]] |}
           {| array := [[[97]]] |} ERLSBW); [reflexivity | auto].
Defined.

(** ** Reads that fail or deliver nothing *)

Lemma input_loop_read_error (bytes : list byte) (err : string) (rest : list read)
    (s0 s : lineStorage) (line word c : Z) :
  input_loop (stream bytes) line word c s0 = (s, Ok None) ->
  input_loop (stream bytes ++ ReadErr err :: rest) line word c s0 = (s, Ok (Some err)).
Proof.
  revert s0 line word c. induction bytes as [|x bytes IH]; intros s0 line word c.
  - cbn [stream map app input_loop ret SE_monad]. intros [= <-]. reflexivity.
  - cbn [stream map app input_loop].
    destruct (x =? space); [apply IH|]. destruct (x =? newline); [apply IH|].
    cbn [bind SE_monad]. destruct (setWord line word c x s0) as [s1 [[]|msg]].
    + apply IH.
    + intros [=].
Qed.

(** X5: a file that cannot be opened gives its error and leaves the storage
    alone; a read error stops ingestion at once: the error is returned,
    what was stored up to there stays, and no later read is looked at. *)
Theorem input_errors_propagate :
  (forall err s, input (OpenErr err) s = (s, Ok (Some err))) /\
  (forall bytes err rest s,
     ingest bytes = (s, Ok None) ->
     input (Opened (stream bytes ++ ReadErr err :: rest)) {| array := [] |}
     = (s, Ok (Some err))).
Proof.
  split; [reflexivity|].
  intros bytes err rest s Hs. cbn [input]. apply input_loop_read_error, Hs.
Qed.

Lemma input_errors_propagate_witness :
  input (Opened (stream [97; 32; 98] ++ ReadErr "disk"%string :: [ReadByte 99]))
    {| array := [] |}
  = ({| array := [[[97]; [98]]] |}, Ok (Some "disk"%string)).
Proof. apply (proj2 input_errors_propagate [97; 32; 98]). reflexivity. Defined.

Lemma input_loop_without_empty_reads (reads : list read) (line word c : Z)
    (s : lineStorage) :
  input_loop (without_empty_reads reads) line word c s = input_loop reads line word c s.
Proof.
  revert line word c s. induction reads as [|r reads IH]; intros line word c s;
    [reflexivity|].
  destruct r as [b | | err]; cbn [without_empty_reads input_loop].
  - destruct (b =? space); [apply IH|]. destruct (b =? newline); [apply IH|].
    cbn [bind SE_monad]. destruct (setWord line word c b s) as [s1 [[]|msg]];
      [apply IH | reflexivity].
  - apply IH.
  - reflexivity.
Qed.

(** X6: reads that deliver no byte and no error change nothing: the file
    without them is ingested to the same storage with the same result. *)
Theorem input_ignores_empty_reads (reads : list read) (s : lineStorage) :
  input (Opened (without_empty_reads reads)) s = input (Opened reads) s.
Proof. cbn [input]. apply input_loop_without_empty_reads. Qed.

(** ** How ingestion can end *)

Lemma input_loop_outcome (bytes : list byte) :
  forall (s : lineStorage) (line word c : Z),
    ingesting s line word c ->
    (exists s', input_loop (stream bytes) line word c s = (s', Ok None)) \/
    out_of_sequence (input_loop (stream bytes) line word c s).
Proof.
  induction bytes as [|x bytes IH]; intros s line word c Hin.
  - left. exists s. reflexivity.
  - destruct (Z.eq_dec x space) as [-> | Hsp].
    + cbn [stream map]. rewrite input_loop_space.
      apply IH, (ingesting_space _ _ _ _ Hin).
    + destruct (Z.eq_dec x newline) as [-> | Hnl].
      * cbn [stream map]. rewrite input_loop_newline.
        apply IH, (ingesting_newline _ _ _ _ Hin).
      * cbn [stream map]. rewrite input_loop_content by (split; assumption).
        destruct (ingesting_content s line word c x Hin)
          as [(s' & Hs' & Hin') | (msg & Hmsg & Hor)].
        -- rewrite (SE_bind_Ok _ _ _ _ _ Hs'). apply IH, Hin'.
        -- right. rewrite (SE_bind_Panic _ _ _ _ _ Hmsg). exists s, msg. auto.
Qed.

(** X7: ingesting a file of bytes into the empty storage either succeeds or
    ends in the line or the word guard of [setWord]; the character guard
    and the run-time index checks are never reached. *)
Theorem ingest_outcome (bytes : list byte) :
  (exists s, ingest bytes = (s, Ok None)) \/ out_of_sequence (ingest bytes).
Proof. apply input_loop_outcome, ingesting_start. Qed.

(** ** What a successful ingestion stores *)

Lemma setWord_well_formed (line word c : Z) (v : byte) (s s' : lineStorage) :
  content v -> well_formed (array s) ->
  setWord line word c v s = (s', Ok tt) ->
  well_formed (array s').
Proof.
  unfold well_formed, well_formed_line, well_formed_word. intros Hv Hs Hs'.
  destruct (setWord_Ok_shape _ _ _ _ _ _ Hs')
    as [(arr & l0 & w0 & Ha & ->) | [(arr & l0 & Ha & ->) | ->]].
  - rewrite Ha in Hs. apply Forall_app in Hs as [Harr Hl].
    apply Forall_cons in Hl as [[_ Hl] _]. apply Forall_app in Hl as [Hl0 Hw0].
    apply Forall_cons in Hw0 as [[_ Hw0] _].
    apply Forall_app. split; [exact Harr|]. apply Forall_cons. split; [|constructor].
    split; [intros Hnil; apply app_eq_nil in Hnil as [_ Hnil]; discriminate Hnil|].
    apply Forall_app. split; [exact Hl0|]. apply Forall_cons. split; [|constructor].
    split; [intros Hnil; apply app_eq_nil in Hnil as [_ Hnil]; discriminate Hnil|].
    apply Forall_app. split; [exact Hw0|]. apply Forall_cons. split; [exact Hv | constructor].
  - rewrite Ha in Hs. apply Forall_app in Hs as [Harr Hl].
    apply Forall_cons in Hl as [[_ Hl] _].
    apply Forall_app. split; [exact Harr|]. apply Forall_cons. split; [|constructor].
    split; [intros Hnil; apply app_eq_nil in Hnil as [_ Hnil]; discriminate Hnil|].
    apply Forall_app. split; [exact Hl|]. apply Forall_cons. split; [|constructor].
    split; [discriminate|]. apply Forall_cons. split; [exact Hv | constructor].
  - apply Forall_app. split; [exact Hs|]. apply Forall_cons. split; [|constructor].
    split; [discriminate|]. apply Forall_cons. split; [|constructor].
    split; [discriminate|]. apply Forall_cons. split; [exact Hv | constructor].
Qed.

Lemma input_loop_well_formed (bytes : list byte) :
  forall (s s' : lineStorage) (line word c : Z),
    well_formed (array s) ->
    input_loop (stream bytes) line word c s = (s', Ok None) ->
    well_formed (array s').
Proof.
  induction bytes as [|x bytes IH]; intros s s' line word c Hs.
  - cbn [stream map input_loop ret SE_monad]. intros [= <-]. exact Hs.
  - destruct (Z.eq_dec x space) as [-> | Hsp].
    + cbn [stream map]. rewrite input_loop_space. apply IH, Hs.
    + destruct (Z.eq_dec x newline) as [-> | Hnl].
      * cbn [stream map]. rewrite input_loop_newline. apply IH, Hs.
      * cbn [stream map]. rewrite input_loop_content by (split; assumption).
        cbn [bind SE_monad].
        destruct (setWord line word c x s) as [s1 [[]|msg]] eqn:Hset; [|intros [=]].
        apply IH. apply (setWord_well_formed line word c x s s1); [split| |]; assumption.
Qed.

(** X8: what a successful ingestion leaves in the storage is a well-formed
    document: words of stored bytes, no word and no line empty.  Emitting
    it and ingesting the emitted bytes again gives the same storage. *)
Theorem ingest_normal_form (bytes : list byte) (s : lineStorage) :
  ingest bytes = (s, Ok None) ->
  well_formed (array s) /\
  output s [] = (render (array s), Ok tt) /\
  ingest (render (array s)) = (s, Ok None).
Proof.
  intros Hs.
  assert (Hwf : well_formed (array s)).
  { apply (input_loop_well_formed bytes {| array := [] |} s 1 1 1); [constructor | exact Hs]. }
  split; [exact Hwf|]. split.
  - apply (output_presents s (array s) []), lineStorage_presents.
  - unfold ingest. rewrite (input_well_formed (array s) (render (array s)) Hwf) by auto.
    destruct s. reflexivity.
Qed.

Lemma ingest_normal_form_witness :
  well_formed [[[97]; [98]]; [[99]]] /\
  output {| array := [[[97]; [98]]; [[99]]] |} [] = (render [[[97]; [98]]; [[99]]], Ok tt) /\
  ingest (render [[[97]; [98]]; [[99]]]) = ({| array := [[[97]; [98]]; [[99]]] |}, Ok None).
Proof.
  apply (ingest_normal_form [97; 32; 98; 32; 32; 10; 99; 10; 10]
           {| array := [[[97]; [98]]; [[99]]] |}).
  reflexivity.
Defined.

(** ** The ranks of letters *)

(** X9: ranks lie between 0 and 51, two different letters never share a
    rank, and the bytes of rank 0 are ['A'] and the bytes that are not
    letters. *)
Theorem normalizeChar_letters :
  (forall c, 0 <= normalizeChar c <= 51) /\
  (forall c d, is_letter c -> is_letter d -> normalizeChar c = normalizeChar d -> c = d) /\
  (forall c, normalizeChar c = 0 <-> c = 65 \/ ~ is_letter c).
Proof.
  assert (Hcases : forall c,
            (is_upper c /\ normalizeChar c = (c - 65) * 2) \/
            (is_lower c /\ normalizeChar c = (c - 97) * 2 + 1) \/
            (~ is_upper c /\ ~ is_lower c /\ normalizeChar c = 0)).
  { intros c. destruct (Z_le_dec 65 c), (Z_le_dec c 90), (Z_le_dec 97 c), (Z_le_dec c 122);
      first [ left; split; [unfold is_upper; lia | apply normalizeChar_upper; unfold is_upper; lia]
            | right; left; split;
              [unfold is_lower; lia | apply normalizeChar_lower; unfold is_lower; lia]
            | right; right; split; [unfold is_upper; lia|]; split; [unfold is_lower; lia|];
              apply normalizeChar_other; unfold is_upper, is_lower; lia ]. }
  unfold is_letter. split; [|split].
  - intros c. destruct (Hcases c) as [[Hu ->] | [[Hl ->] | (_ & _ & ->)]];
      unfold is_upper, is_lower in *; lia.
  - intros c d Hc Hd.
    destruct (Hcases c) as [[Hu ->] | [[Hl ->] | (Hnu & Hnl & _)]];
      destruct (Hcases d) as [[Hu' ->] | [[Hl' ->] | (Hnu' & Hnl' & _)]];
      unfold is_upper, is_lower in *; try lia; tauto.
  - intros c. destruct (Hcases c) as [[Hu ->] | [[Hl ->] | (Hnu & Hnl & ->)]];
      unfold is_upper, is_lower in *; split; try lia; try tauto.
    all: intros [-> | Hn]; try lia; exfalso; apply Hn; lia.
Qed.

Lemma normalizeChar_letters_witness : 0 <= normalizeChar 122 <= 51 /\ normalizeChar 64 = 0.
Proof.
  destruct normalizeChar_letters as (Hrange & _ & Hzero). split; [apply Hrange|].
  apply Hzero. right. unfold is_letter, is_upper, is_lower. lia.
Defined.

(** ** The order of words, and lines that compare equal *)

Lemma word_lt_asym (a b : list byte) : word_lt a b = true -> word_lt b a = false.
Proof. apply lex_asym; rank_order. Qed.

(** X10: on words that a text presents, [wordsLess] always answers and is
    irreflexive, transitive and asymmetric. *)
Theorem wordsLess_strict_order {T : Type} `{lineHolder T} (holder : T)
    (line1 word1 line2 word2 line3 word3 : Z) (a b c : list byte) :
  word_is holder line1 word1 a ->
  word_is holder line2 word2 b ->
  word_is holder line3 word3 c ->
  wordsLess holder line1 word1 line1 word1 = Ok false /\
  (exists r, wordsLess holder line1 word1 line2 word2 = Ok r) /\
  (wordsLess holder line1 word1 line2 word2 = Ok true ->
   wordsLess holder line2 word2 line3 word3 = Ok true ->
   wordsLess holder line1 word1 line3 word3 = Ok true) /\
  (wordsLess holder line1 word1 line2 word2 = Ok true ->
   wordsLess holder line2 word2 line1 word1 = Ok false).
Proof.
  intros Ha Hb Hc.
  rewrite (wordsLess_lex holder _ _ _ _ a a Ha Ha), (wordsLess_lex holder _ _ _ _ a b Ha Hb),
    (wordsLess_lex holder _ _ _ _ b c Hb Hc), (wordsLess_lex holder _ _ _ _ a c Ha Hc),
    (wordsLess_lex holder _ _ _ _ b a Hb Ha).
  rewrite word_lt_irrefl. split; [reflexivity|]. split; [eexists; reflexivity|]. split.
  - intros [= H1] [= H2]. f_equal. eapply word_lt_trans; eassumption.
  - intros [= H1]. f_equal. apply word_lt_asym, H1.
Qed.

Lemma sample_storage_word (j : nat) (w : list byte) :
  [[98; 99]; [97]; [100]] !! j = Some w -> word_is sample_storage 3 (Z.of_nat j + 1) w.
Proof.
  intros Hw. destruct (lineStorage_presents sample_storage) as [_ Hdoc].
  destruct (Hdoc 2%nat _ eq_refl) as [_ Hline]. apply Hline, Hw.
Qed.

Lemma wordsLess_strict_order_witness :
  wordsLess sample_storage 3 2 3 2 = Ok false /\
  (exists r, wordsLess sample_storage 3 2 3 1 = Ok r) /\
  (wordsLess sample_storage 3 2 3 1 = Ok true ->
   wordsLess sample_storage 3 1 3 3 = Ok true ->
   wordsLess sample_storage 3 2 3 3 = Ok true) /\
  (wordsLess sample_storage 3 2 3 1 = Ok true ->
   wordsLess sample_storage 3 1 3 2 = Ok false).
Proof.
  apply (wordsLess_strict_order sample_storage 3 2 3 1 3 3 [97] [98; 99] [100]).
  - apply (sample_storage_word 1), eq_refl.
  - apply (sample_storage_word 0), eq_refl.
  - apply (sample_storage_word 2), eq_refl.
Defined.

(** X11: two lines are equal for [linesLess], neither below the other,
    exactly when they have the same number of words and, word for word and
    character for character, the same ranks. *)
Theorem linesLess_equal_lines {T : Type} `{lineHolder T} (holder : T) (doc : document)
    (a b : Z) :
  presents holder doc ->
  1 <= a <= len doc -> 1 <= b <= len doc ->
  (linesLess holder a b = Ok false /\ linesLess holder b a = Ok false) <->
  map ranks (line_at doc a) = map ranks (line_at doc b).
Proof.
  intros Hdoc Ha Hb.
  rewrite (linesLess_less holder doc Hdoc a b Ha Hb), (linesLess_less holder doc Hdoc b a Hb Ha).
  unfold less. rewrite !line_lt_ranks. split.
  - intros [[= H1] [= H2]]. revert H1 H2. apply lex_connex.
    apply lex_connex. intros x y. rewrite !Z.ltb_ge. lia.
  - intros ->. rewrite lex_irrefl; [auto|]. intros r. apply lex_irrefl, Z.ltb_irrefl.
Qed.

Lemma linesLess_equal_lines_witness :
  (linesLess {| array := [[[97; 49]]; [[98]]; [[97; 50]]] |} 1 3 = Ok false /\
   linesLess {| array := [[[97; 49]]; [[98]]; [[97; 50]]] |} 3 1 = Ok false) <->
  map ranks (line_at [[[97; 49]]; [[98]]; [[97; 50]]] 1)
  = map ranks (line_at [[[97; 49]]; [[98]]; [[97; 50]]] 3).
Proof.
  apply (linesLess_equal_lines {| array := [[[97; 49]]; [[98]]; [[97; 50]]] |}).
  - apply lineStorage_presents.
  - vm_compute. split; discriminate.
  - vm_compute. split; discriminate.
Defined.

Lemma lex_prefix {A} (lt : A -> A -> bool) (l r : list A) (x : A) :
  (forall y, lt y y = false) ->
  lex lt l (l ++ x :: r) = true /\ lex lt (l ++ x :: r) l = false.
Proof.
  intros Hirr. induction l as [|y l [IH1 IH2]]; cbn [lex app]; [auto|].
  rewrite Hirr. auto.
Qed.

(** X12: a word that is a proper beginning of another, and a line whose
    words are a proper beginning of another line's, is below it. *)
Theorem prefix_is_less {T : Type} `{lineHolder T} (holder : T) :
  (forall line1 word1 line2 word2 a x b,
     word_is holder line1 word1 a ->
     word_is holder line2 word2 (a ++ x :: b) ->
     wordsLess holder line1 word1 line2 word2 = Ok true /\
     wordsLess holder line2 word2 line1 word1 = Ok false) /\
  (forall line1 line2 a x b,
     line_is holder line1 a ->
     line_is holder line2 (a ++ x :: b) ->
     linesLess holder line1 line2 = Ok true /\
     linesLess holder line2 line1 = Ok false).
Proof.
  split.
  - intros line1 word1 line2 word2 a x b Ha Hb.
    rewrite (wordsLess_lex holder _ _ _ _ _ _ Ha Hb), (wordsLess_lex holder _ _ _ _ _ _ Hb Ha).
    unfold word_lt, ranks.
    replace (map normalizeChar (a ++ x :: b))
      with (map normalizeChar a ++ normalizeChar x :: map normalizeChar b)
      by (rewrite map_app; reflexivity).
    destruct (lex_prefix Z.ltb (map normalizeChar a) (map normalizeChar b) (normalizeChar x))
      as [H1 H2]; [apply Z.ltb_irrefl|].
    split; f_equal; [exact H1 | exact H2].
  - intros line1 line2 a x b Ha Hb.
    rewrite (linesLess_lex holder _ _ _ _ Ha Hb), (linesLess_lex holder _ _ _ _ Hb Ha).
    unfold line_lt.
    destruct (lex_prefix word_lt a b x) as [-> ->]; [apply word_lt_irrefl | auto].
Qed.

Lemma prefix_is_less_witness :
  linesLess {| array := [[[98]; [97]]; [[98]]] |} 2 1 = Ok true /\
  linesLess {| array := [[[98]; [97]]; [[98]]] |} 1 2 = Ok false.
Proof.
  destruct (lineStorage_presents {| array := [[[98]; [97]]; [[98]]] |}) as [_ Hdoc].
  apply (proj2 (prefix_is_less {| array := [[[98]; [97]]; [[98]]] |}) 2 1 [[98]] [97] []).
  - apply (Hdoc 1%nat _ eq_refl).
  - apply (Hdoc 0%nat _ eq_refl).
Defined.

(** ** The shifter reads as the rotations *)

Lemma rotate_Permutation (l : list (list byte)) (k : nat) : rotate l k ≡ₚ l.
Proof. unfold rotate. rewrite Permutation_app_comm, take_drop. reflexivity. Qed.

Lemma rotations_of_line_spec (l : list (list byte)) (ks : list nat) :
  Forall (fun k => (1 <= k <= length l)%nat) ks ->
  Forall (fun r => exists k, (1 <= k <= length l)%nat /\ r = rotate l k /\ r ≡ₚ l)
    (map (rotate l) ks).
Proof.
  induction 1 as [|k ks Hk _ IH]; cbn [map]; constructor; [|exact IH].
  exists k. split; [exact Hk|]. split; [reflexivity | apply rotate_Permutation].
Qed.

(** X13: the shifter built over a text that keeps the read contract keeps it
    too: its four operations read as the rotations of the text's lines,
    line by line.  Each of its lines holds the words of one source line,
    started at another word, and every source line that has a word is one of
    them. *)
Theorem circularShifter_reads_rotations {T : Type} `{lineHolder T} (holder : T)
    (doc : document) :
  presents holder doc ->
  exists shifter,
    newCircularShifter holder = Ok shifter /\
    presents shifter (rotations doc) /\
    Forall (fun r => exists l k,
              l ∈ doc /\ (1 <= k <= length l)%nat /\ r = rotate l k /\ r ≡ₚ l)
      (rotations doc) /\
    (forall l, l ∈ doc -> l <> [] -> l ∈ rotations doc).
Proof.
  intros Hdoc. eexists. split; [apply newCircularShifter_presents, Hdoc|].
  split; [apply circularShifter_presents, Hdoc|]. clear Hdoc. split.
  - induction doc as [|l doc IH]; [constructor|].
    unfold rotations. cbn [map concat]. fold (rotations doc).
    apply Forall_app. split.
    + unfold rotations_of_line.
      eapply Forall_impl; [apply rotations_of_line_spec|].
      * apply Forall_forall. intros k Hk. apply list_elem_of_In, in_seq in Hk. lia.
      * intros r (k & Hk & Hr & Hp). exists l, k. split; [left|]; auto.
    + eapply Forall_impl; [exact IH|].
      intros r (l' & k & Hl' & Hrest). exists l', k. split; [right; exact Hl' | exact Hrest].
  - intros l Hl Hne. induction doc as [|l' doc IH]; [inversion Hl|].
    unfold rotations. cbn [map concat]. fold (rotations doc).
    apply elem_of_app. apply elem_of_cons in Hl as [-> | Hl]; [left | right; apply IH, Hl].
    unfold rotations_of_line. apply list_elem_of_In, in_map_iff.
    exists (length l'). split.
    + unfold rotate. rewrite drop_all, take_ge by lia. reflexivity.
    + apply in_seq. destruct l'; [congruence | simpl; lia].
Qed.

Lemma circularShifter_reads_rotations_witness :
  exists shifter,
    newCircularShifter sample_storage = Ok shifter /\
    presents shifter (rotations (array sample_storage)) /\
    Forall (fun r => exists l k,
              l ∈ array sample_storage /\ (1 <= k <= length l)%nat /\
              r = rotate l k /\ r ≡ₚ l)
      (rotations (array sample_storage)) /\
    (forall l, l ∈ array sample_storage -> l <> [] -> l ∈ rotations (array sample_storage)).
Proof.
  apply (circularShifter_reads_rotations sample_storage (array sample_storage)).
  apply lineStorage_presents.
Defined.

(** ** The partition and the sort *)

(** X14: the invariant that [quickSort] states for its loop.  On the range
    that starts with the pivot [p], the loop ends with the pivot moved
    behind the lines below it: before it stand exactly the lines of the
    range that are below [p], after it the others, and outside the range
    nothing has moved. *)
Theorem partition_splits {T : Type} `{lineHolder T} (holder : T) (doc : document)
    (A : list Z) (p : Z) (U B : list Z) :
  presents holder doc ->
  valid_line doc p -> Forall (valid_line doc) U ->
  exists L G,
    partition holder (len A) (len A + len (p :: U)) (A ++ p :: U ++ B)
    = Ok (len A + len L, A ++ L ++ p :: G ++ B) /\
    L ++ G ≡ₚ U /\
    Forall (fun x => less doc x p = true) L /\
    Forall (fun x => less doc x p = false) G.
Proof.
  intros Hdoc Hp HU.
  destruct (partition_loop_spec holder doc Hdoc U A [] p [] B (len A + 1) (len A)
              (A ++ p :: U ++ B))
    as (L & G & Hloop & Hpm & HL & HG);
    [list_eq | len_eq | len_eq | assumption | assumption | constructor | constructor |].
  exists L, G. split; [|auto].
  unfold partition, for_range. rewrite len_cons.
  replace (Z.to_nat (len A + (len U + 1) - (len A + 1))) with (length U)
    by (unfold len; lia).
  exact Hloop.
Qed.

Lemma sample_storage_valid (p : Z) : 1 <= p <= 3 -> valid_line (array sample_storage) p.
Proof. intros Hp. unfold valid_line. vm_compute. vm_compute in Hp. exact Hp. Qed.

Lemma partition_splits_witness :
  exists L G,
    partition sample_storage (len [2]) (len [2] + len (1 :: [3; 2])) ([2] ++ 1 :: [3; 2] ++ [1])
    = Ok (len [2] + len L, [2] ++ L ++ 1 :: G ++ [1]) /\
    L ++ G ≡ₚ [3; 2] /\
    Forall (fun x => less (array sample_storage) x 1 = true) L /\
    Forall (fun x => less (array sample_storage) x 1 = false) G.
Proof.
  apply (partition_splits sample_storage (array sample_storage) [2] 1 [3; 2] [1]).
  - apply lineStorage_presents.
  - apply sample_storage_valid. lia.
  - repeat (apply Forall_cons; split; [apply sample_storage_valid; lia|]). constructor.
Defined.

(** X15: [quickSort] on the range from [left] to [right] sorts that range in
    place: the range ends as a rearrangement of what it held, with no line
    below an earlier one, and the array outside the range is untouched. *)
Theorem quickSort_sorts_range {T : Type} `{lineHolder T} (holder : T) (doc : document)
    (A S B : list Z) :
  presents holder doc ->
  Forall (valid_line doc) S ->
  exists S',
    quickSort holder (len A) (len A + len S) (A ++ S ++ B) = Ok (A ++ S' ++ B) /\
    S' ≡ₚ S /\ sorted_lines doc S'.
Proof.
  intros Hdoc HS. apply (quickSort_spec holder doc Hdoc (length S)); [lia | exact HS].
Qed.

Lemma quickSort_sorts_range_witness :
  exists S',
    quickSort sample_storage (len [7]) (len [7] + len [3; 1; 2]) ([7] ++ [3; 1; 2] ++ [9])
    = Ok ([7] ++ S' ++ [9]) /\
    S' ≡ₚ [3; 1; 2] /\ sorted_lines (array sample_storage) S'.
Proof.
  apply (quickSort_sorts_range sample_storage (array sample_storage) [7] [3; 1; 2] [9]).
  - apply lineStorage_presents.
  - repeat (apply Forall_cons; split; [apply sample_storage_valid; lia|]). constructor.
Defined.

(** ** The sorted view as a text *)

Lemma fmap_line_at_seqZ (doc : document) : line_at doc <$> seqZ 1 (len doc) = doc.
Proof.
  apply list_eq. intros i. rewrite list_lookup_fmap.
  destruct (doc !! i) as [l|] eqn:Hl.
  - pose proof (lookup_lt_Some _ _ _ Hl).
    rewrite lookup_seqZ_lt by (unfold len; lia). cbn [fmap option_fmap option_map].
    unfold line_at. replace (Z.to_nat (1 + Z.of_nat i - 1)) with i by lia.
    rewrite Hl. symmetry. exact Hl.
  - pose proof (proj1 (lookup_ge_None _ _) Hl).
    rewrite lookup_seqZ_ge by (unfold len; lia). symmetry. exact Hl.
Qed.

(** X16: the view built by [newAlphabetizer] keeps the read contract, and
    the text it reads is the text of its source with the lines rearranged:
    no line is lost, none is repeated, and no line is below an earlier
    one. *)
Theorem alphabetizer_reads_sorted_text {T : Type} `{lineHolder T} (holder : T)
    (doc : document) :
  presents holder doc ->
  exists alpha sorted,
    newAlphabetizer holder = Ok alpha /\
    presents alpha sorted /\
    sorted ≡ₚ doc /\
    StronglySorted (fun x y => line_lt y x = false) sorted.
Proof.
  intros Hdoc. destruct (newAlphabetizer_spec holder doc Hdoc) as (pm & Hnew & Hpm & Hs).
  destruct (newAlphabetizer_perm_valid doc pm Hpm) as [Hvalid Hlen].
  exists {| alpha_storage := holder; perm := pm |}, (line_at doc <$> pm).
  split; [exact Hnew|]. split; [apply alphabetizer_presents; assumption|]. split.
  - rewrite Hpm. rewrite fmap_line_at_seqZ. reflexivity.
  - apply (StronglySorted_fmap (line_at doc) (fun a b => less doc b a = false)); [|exact Hs].
    intros x y Hxy. exact Hxy.
Qed.

Lemma alphabetizer_reads_sorted_text_witness :
  exists alpha sorted,
    newAlphabetizer sample_storage = Ok alpha /\
    presents alpha sorted /\
    sorted ≡ₚ array sample_storage /\
    StronglySorted (fun x y => line_lt y x = false) sorted.
Proof.
  apply (alphabetizer_reads_sorted_text sample_storage (array sample_storage)).
  apply lineStorage_presents.
Defined.

(** ** A text that is sorted already *)

Lemma partition_loop_keep {T : Type} `{lineHolder T} (holder : T) (doc : document)
    (U : list Z) :
  presents holder doc ->
  forall (A L : list Z) (p : Z) (G B : list Z) (i pivot : Z) (perm : list Z),
    perm = A ++ L ++ p :: G ++ U ++ B ->
    pivot = len A + len L ->
    i = pivot + 1 + len G ->
    valid_line doc p -> Forall (valid_line doc) U ->
    Forall (fun x => less doc x p = false) U ->
    for_loop (length U) i (partition_step holder) (pivot, perm) = Ok (pivot, perm).
Proof.
  intros Hdoc.
  induction U as [|x U IH]; intros A L p G B i pivot perm Hperm Hpivot Hi Hp HU Hless;
    [reflexivity|].
  apply Forall_cons in HU as [Hx HU]. apply Forall_cons in Hless as [Hxp Hless].
  pose proof (len_nonneg A). pose proof (len_nonneg L). pose proof (len_nonneg G).
  assert (Hix : index perm i = Ok x).
  { apply (index_at perm (A ++ L ++ p :: G) (U ++ B)); [subst; list_eq | subst; len_eq]. }
  assert (Hip : index perm pivot = Ok p).
  { apply (index_at perm (A ++ L) (G ++ x :: U ++ B)); [subst; list_eq | subst; len_eq]. }
  assert (Hstep : partition_step holder i (pivot, perm) = Ok (pivot, perm)).
  { unfold partition_step. rewrite Hix, Hip. cbn [bind result_monad].
    rewrite (linesLess_less holder doc Hdoc x p Hx Hp), Hxp. reflexivity. }
  cbn [length]. rewrite for_loop_succ, Hstep, bind_Ok.
  apply (IH A L p (G ++ [x]) B); try assumption; [subst; list_eq | subst; len_eq].
Qed.

Lemma quickSort_sorted_keep {T : Type} `{lineHolder T} (holder : T) (doc : document)
    (n : nat) :
  presents holder doc ->
  forall (A S B : list Z),
    (length S <= n)%nat -> Forall (valid_line doc) S -> sorted_lines doc S ->
    quickSort holder (len A) (len A + len S) (A ++ S ++ B) = Ok (A ++ S ++ B).
Proof.
  intros Hdoc. induction n as [|n IH]; intros A S B Hlen HS Hsorted;
    rewrite (quickSort_eq holder).
  - destruct S; [|simpl in Hlen; lia].
    rewrite (proj2 (Z.leb_le _ _)) by len_eq. reflexivity.
  - destruct S as [|p [|u U]].
    + rewrite (proj2 (Z.leb_le _ _)) by len_eq. reflexivity.
    + rewrite (proj2 (Z.leb_le _ _)) by len_eq. reflexivity.
    + pose proof (len_nonneg U). rewrite !len_cons.
      rewrite (proj2 (Z.leb_gt _ _)) by lia.
      apply Forall_cons in HS as [Hp HU].
      apply StronglySorted_cons in Hsorted as [Hall Hrest].
      unfold partition, for_range.
      replace (Z.to_nat (len A + (len U + 1 + 1) - (len A + 1))) with (length (u :: U))
        by (cbn [length]; unfold len; lia).
      rewrite (partition_loop_keep holder doc (u :: U) Hdoc A [] p [] B);
        [|list_eq | len_eq | len_eq | assumption | assumption | exact Hall].
      rewrite (quickSort_eq holder (len A) (len A)).
      rewrite (proj2 (Z.leb_le _ _)) by lia. rewrite bind_Ok.
      specialize (IH (A ++ [p]) (u :: U) B).
      rewrite len_snoc, len_cons, <- app_assoc in IH. cbn [app] in IH.
      replace (len A + (len U + 1 + 1)) with (len A + 1 + (len U + 1)) by lia.
      apply IH; [simpl in Hlen |- *; lia | exact HU | exact Hrest].
Qed.

Lemma newAlphabetizer_quickSort {T : Type} `{lineHolder T} (holder : T) (doc : document) :
  presents holder doc ->
  newAlphabetizer holder
  = bind (quickSort holder 0 (len doc) (seqZ 1 (len doc)))
      (fun pm => Ok {| alpha_storage := holder; perm := pm |}).
Proof.
  intros Hdoc. unfold newAlphabetizer. rewrite (proj1 Hdoc), bind_Ok.
  unfold make. pose proof (len_nonneg doc).
  rewrite (proj2 (Z.ltb_ge (len doc) 0)) by lia. rewrite bind_Ok.
  unfold for_range.
  assert (Hrep : len (replicate (Z.to_nat (len doc)) 0) = len doc).
  { unfold len. rewrite length_replicate. lia. }
  rewrite Hrep, Z.sub_0_r.
  pose proof (fill_loop (Z.to_nat (len doc)) []) as Hfill.
  cbn [app] in Hfill. change (len []) with 0 in Hfill. rewrite Hfill, bind_Ok.
  rewrite Z2Nat.id by lia. change (0 + 1) with 1.
  assert (Hseq : len (seqZ 1 (len doc)) = len doc).
  { unfold len. rewrite length_seqZ. lia. }
  rewrite Hseq. reflexivity.
Qed.

Lemma StronglySorted_seqZ (R : Z -> Z -> Prop) (n : nat) (m : Z) :
  (forall i j, m <= i -> i < j -> j < m + Z.of_nat n -> R i j) ->
  StronglySorted R (seqZ m (Z.of_nat n)).
Proof.
  revert m. induction n as [|n IH]; intros m HR.
  - rewrite seqZ_nil by lia. constructor.
  - rewrite seqZ_cons by lia.
    replace (Z.pred (Z.of_nat (S n))) with (Z.of_nat n) by lia. constructor.
    + apply IH. intros i j Hi Hij Hj. apply HR; lia.
    + apply Forall_seqZ. intros j Hj. apply HR; lia.
Qed.

(** X17: on a text in which no line is below an earlier one, the sort moves
    nothing: the permutation is the identity, so lines that compare equal
    keep their order. *)
Theorem newAlphabetizer_sorted_input {T : Type} `{lineHolder T} (holder : T)
    (doc : document) :
  presents holder doc ->
  (forall i j, 1 <= i -> i < j -> j <= len doc -> linesLess holder j i = Ok false) ->
  newAlphabetizer holder = Ok {| alpha_storage := holder; perm := seqZ 1 (len doc) |}.
Proof.
  intros Hdoc Hsorted. rewrite (newAlphabetizer_quickSort holder doc Hdoc).
  pose proof (quickSort_sorted_keep holder doc (length (seqZ 1 (len doc))) Hdoc
                [] (seqZ 1 (len doc)) []) as Hq.
  rewrite app_nil_r in Hq. cbn [app] in Hq. change (len []) with 0 in Hq.
  assert (Hseq : len (seqZ 1 (len doc)) = len doc).
  { unfold len. rewrite length_seqZ. lia. }
  rewrite Z.add_0_l, Hseq in Hq. rewrite Hq; [reflexivity | lia | |].
  - apply Forall_seqZ. unfold valid_line. lia.
  - unfold sorted_lines, len. apply StronglySorted_seqZ. intros i j Hi Hij Hj.
    fold (len doc) in Hj.
    assert (Hlt : linesLess holder j i = Ok false) by (apply Hsorted; lia).
    rewrite (linesLess_less holder doc Hdoc j i) in Hlt by (unfold valid_line; lia).
    injection Hlt as Hlt. exact Hlt.
Qed.

Lemma newAlphabetizer_sorted_input_witness :
  newAlphabetizer {| array := [[[97]]; [[98; 49]]; [[98; 50]]; [[99]]] |}
  = Ok {| alpha_storage := {| array := [[[97]]; [[98; 49]]; [[98; 50]]; [[99]]] |};
          perm := seqZ 1 (len [[[97]]; [[98; 49]]; [[98; 50]]; [[99]]]) |}.
Proof.
  apply (newAlphabetizer_sorted_input
           {| array := [[[97]]; [[98; 49]]; [[98; 50]]; [[99]]] |}
           [[[97]]; [[98; 49]]; [[98; 50]]; [[99]]]).
  - apply lineStorage_presents.
  - intros i j Hi Hij Hj. change (len [[[97]]; [[98; 49]]; [[98; 50]]; [[99]]]) with 4 in Hj.
    assert (Hc : (i = 1 \/ i = 2 \/ i = 3) /\ (j = 2 \/ j = 3 \/ j = 4)) by lia.
    destruct Hc as [[-> | [-> | ->]] [-> | [-> | ->]]]; try lia; reflexivity.
Defined.

(** ** Emission of any view *)

(** X18: for every view that keeps the read contract, storage, shifter or
    sorted view alike, [output] ends without a panic and has added to the
    sink the lines of the view in order, the words of a line separated by
    one space and each line closed by a newline. *)
Theorem output_writes_text {T : Type} `{lineHolder T} (holder : T) (doc : document)
    (written : list byte) :
  presents holder doc ->
  output holder written = (written ++ render doc, Ok tt).
Proof. intros Hdoc. apply output_presents, Hdoc. Qed.

Lemma output_writes_text_witness :
  exists shifter,
    newCircularShifter two_words = Ok shifter /\
    output shifter [35] = ([35] ++ render (rotations (array two_words)), Ok tt).
Proof.
  eexists. split; [apply (newCircularShifter_presents two_words), lineStorage_presents|].
  apply output_writes_text, circularShifter_presents, lineStorage_presents.
Defined.

(** ** The whole run, whatever the file *)

Lemma main_after_input (f : file) (s : lineStorage) :
  input f {| array := [] |} = (s, Ok None) ->
  exists pm,
    main f = (render (line_at (rotations (array s)) <$> pm), Exit0) /\
    pm ≡ₚ seqZ 1 (len (rotations (array s))) /\
    sorted_lines (rotations (array s)) pm.
Proof.
  intros Hin. unfold main. rewrite Hin.
  pose proof (lineStorage_presents s) as Hst.
  rewrite (newCircularShifter_presents _ _ Hst).
  pose proof (circularShifter_presents _ _ Hst) as Hsh.
  destruct (newAlphabetizer_spec _ _ Hsh) as (pm & Hnew & Hpm & Hs).
  rewrite Hnew.
  destruct (newAlphabetizer_perm_valid _ pm Hpm) as [Hvalid Hlen].
  pose proof (alphabetizer_presents _ _ Hsh pm Hvalid Hlen) as Halpha.
  rewrite (output_presents _ _ [] Halpha). cbn [app].
  exists pm. auto.
Qed.

(** X19: when ingestion succeeds, [main] writes the rotations of the stored
    lines, every one of them once, in an order in which no line is below an
    earlier one, and ends normally. *)
Theorem main_writes_sorted_rotations (f : file) (s : lineStorage) :
  input f {| array := [] |} = (s, Ok None) ->
  exists sorted,
    main f = (render sorted, Exit0) /\
    sorted ≡ₚ rotations (array s) /\
    StronglySorted (fun x y => line_lt y x = false) sorted.
Proof.
  intros Hin. destruct (main_after_input f s Hin) as (pm & Hmain & Hpm & Hs).
  exists (line_at (rotations (array s)) <$> pm). split; [exact Hmain|]. split.
  - rewrite Hpm, fmap_line_at_seqZ. reflexivity.
  - apply (StronglySorted_fmap (line_at (rotations (array s)))
             (fun a b => less (rotations (array s)) b a = false)); [|exact Hs].
    intros x y Hxy. exact Hxy.
Qed.

Lemma main_writes_sorted_rotations_witness :
  exists sorted,
    main (Opened [ReadByte 98; ReadNone; ReadByte 32; ReadByte 97; ReadByte 10])
    = (render sorted, Exit0) /\
    sorted ≡ₚ rotations [[[98]; [97]]] /\
    StronglySorted (fun x y => line_lt y x = false) sorted.
Proof.
  apply (main_writes_sorted_rotations
           (Opened [ReadByte 98; ReadNone; ReadByte 32; ReadByte 97; ReadByte 10])
           {| array := [[[98]; [97]]] |}).
  reflexivity.
Defined.

(** X20: when the file cannot be opened, or a read fails after bytes that
    were ingested without a panic, [main] writes nothing and ends with that
    error. *)
Theorem main_input_error :
  (forall err, main (OpenErr err) = ([], Fatal err)) /\
  (forall bytes err rest s,
     ingest bytes = (s, Ok None) ->
     main (Opened (stream bytes ++ ReadErr err :: rest)) = ([], Fatal err)).
Proof.
  split; [reflexivity|].
  intros bytes err rest s Hs. unfold main. cbn [input].
  rewrite (input_loop_read_error bytes err rest _ s 1 1 1 Hs). reflexivity.
Qed.

Lemma main_input_error_witness :
  main (Opened (stream [97; 32; 98] ++ ReadErr "disk"%string :: [ReadByte 99]))
  = ([], Fatal "disk"%string).
Proof. apply (proj2 main_input_error [97; 32; 98] _ _ {| array := [[[97]; [98]]] |}). reflexivity. Defined.

(** X21: on a file of bytes [main] ends in one of two ways: normally, the
    sorted rotations written, or by the line or the word guard of
    [setWord] during ingestion, nothing written.  The shifter, the sort and
    the emission never panic on what ingestion stored. *)
Theorem main_outcome (bytes : list byte) :
  (exists sorted, main (Opened (stream bytes)) = (render sorted, Exit0)) \/
  (exists msg,
     main (Opened (stream bytes)) = ([], Panicked msg) /\ (msg = ERLSBL \/ msg = ERLSBW)).
Proof.
  destruct (input_loop_outcome bytes {| array := [] |} 1 1 1 ingesting_start)
    as [[s Hs] | (s & msg & Hs & Hmsg)].
  - left. destruct (main_after_input (Opened (stream bytes)) s Hs) as (pm & Hmain & _).
    eexists. exact Hmain.
  - right. exists msg. split; [|exact Hmsg]. unfold main. cbn [input]. rewrite Hs. reflexivity.
Qed.
